(** * The ledger bot ([telegram_bot.py]): store, report and handlers

    A shallow embedding of the ledger part of [telegram_bot.py]: the two
    SQLite tables ([entries], [meta]), the store functions working on them,
    [build_report], and the chat handlers that create, delete and list
    entries.

    Numbers.  Python [float]s are modelled by [pyfloat]: a finite value is an
    exact rational (no rounding, no overflow), and the two infinities and NaN
    are separate constructors, because [float()] accepts their spellings.  The
    REAL columns of table [entries] hold finite values only: a handler that
    would bind an infinity or a NaN into that table returns [None] here.
    What the code stores then is given apart, by [add_entry_stored], which
    is [add_entry] on a table whose amounts may be NULL or infinite.

    Text.  Strings are sequences of bytes; [\s], [\d] and [str.strip] are
    taken on ASCII. *)

From Stdlib Require Import ZArith QArith Qabs Lqa Lia.
From Stdlib Require Import List String Ascii Bool.
From Stdlib Require Import Sorted Permutation.
Import ListNotations.

Local Open Scope Z_scope.

(* ================================================================== *)
(** ** Python floats *)

Inductive pyfloat : Type :=
| Fin (q : Q)
| Inf (negative : bool)
| NaN.

(** [DEFAULT_RATE = 93.5] *)
Definition DEFAULT_RATE : pyfloat := Fin (935 # 10).

(** Truth value of a float ([bool(x)]): everything but zero. *)
Definition truthy (x : pyfloat) : bool :=
  match x with
  | Fin q => negb (Qeq_bool q 0)
  | Inf _ => true
  | NaN => true
  end.

(** [x != 0] *)
Definition float_ne0 (x : pyfloat) : bool := truthy x.

(** [abs(x)] *)
Definition float_abs (x : pyfloat) : pyfloat :=
  match x with
  | Fin q => Fin (Qabs q)
  | Inf _ => Inf false
  | NaN => NaN
  end.

Definition Qlt_bool (a b : Q) : bool := negb (Qle_bool b a).

(** [x < y]; every comparison with NaN is false. *)
Definition float_lt (x y : pyfloat) : bool :=
  match x, y with
  | NaN, _ | _, NaN => false
  | Fin a, Fin b => Qlt_bool a b
  | Fin _, Inf neg => negb neg
  | Inf neg, Fin _ => neg
  | Inf n1, Inf n2 => n1 && negb n2
  end.

(** [x <= y] *)
Definition float_le (x y : pyfloat) : bool :=
  match x, y with
  | NaN, _ | _, NaN => false
  | Fin a, Fin b => Qle_bool a b
  | Fin _, Inf neg => negb neg
  | Inf neg, Fin _ => neg
  | Inf n1, Inf n2 => n1 || negb n2
  end.

(** [x / y] for [y != 0].  Python raises [ZeroDivisionError] on a zero
    divisor; every division of the program is guarded by [rate != 0], so the
    value given here for that case is never used. *)
Definition float_div (x y : pyfloat) : pyfloat :=
  match x, y with
  | NaN, _ | _, NaN => NaN
  | Fin a, Fin b => Fin (a / b)
  | Fin _, Inf _ => Fin 0
  | Inf n, Fin b => Inf (xorb n (Qlt_bool b 0))
  | Inf _, Inf _ => NaN
  end.

(* ================================================================== *)
(** ** Strings *)

Definition chars := list ascii.

Definition is_space (c : ascii) : bool :=
  let n := N_of_ascii c in
  ((9 <=? n) && (n <=? 13) || (28 <=? n) && (n <=? 32))%N.

Definition is_digit (c : ascii) : bool :=
  let n := N_of_ascii c in ((48 <=? n) && (n <=? 57))%N.

Definition digit_val (c : ascii) : Z := Z.of_N (N_of_ascii c) - 48.

Fixpoint lstrip (l : chars) : chars :=
  match l with
  | c :: l' => if is_space c then lstrip l' else l
  | [] => []
  end.

(** [s.strip()] *)
Definition py_strip (s : string) : string :=
  string_of_list_ascii
    (rev (lstrip (rev (lstrip (list_ascii_of_string s))))).

Definition not_comma (c : ascii) : bool := negb (Ascii.eqb c ","%char).

(** [s.replace(',', '')] *)
Definition remove_commas (s : string) : string :=
  string_of_list_ascii (filter not_comma (list_ascii_of_string s)).

Definition lower (c : ascii) : ascii :=
  let n := N_of_ascii c in
  if ((65 <=? n) && (n <=? 90))%N then ascii_of_N (n + 32) else c.

(* ================================================================== *)
(** ** [float(s)] on strings

    The grammar of the Python language reference:
<<
    floatvalue  ::= [sign] (floatnumber | "inf" | "infinity" | "nan")
    floatnumber ::= number [exponent]
    number      ::= [digitpart] "." digitpart | digitpart ["."]
    digitpart   ::= digit (["_"] digit)*
    exponent    ::= ("e" | "E") [sign] digitpart
>>
    with surrounding whitespace ignored and the three words read without
    regard to case.  [None] is [ValueError]. *)

(** Digits after the first one of a digitpart: value so far, number of
    digits read, and what follows. *)
Fixpoint more_digits (acc : Z) (n : nat) (l : chars) : Z * nat * chars :=
  match l with
  | c :: l' =>
      if is_digit c then more_digits (10 * acc + digit_val c) (S n) l'
      else if Ascii.eqb c "_"%char then
        match l' with
        | d :: l'' =>
            if is_digit d
            then more_digits (10 * acc + digit_val d) (S n) l''
            else (acc, n, l)
        | [] => (acc, n, l)
        end
      else (acc, n, l)
  | [] => (acc, n, l)
  end.

Definition digitpart (l : chars) : option (Z * nat * chars) :=
  match l with
  | c :: l' => if is_digit c then Some (more_digits (digit_val c) 1 l') else None
  | [] => None
  end.

Definition read_sign (l : chars) : bool * chars :=
  match l with
  | c :: l' =>
      if Ascii.eqb c "-"%char then (true, l')
      else if Ascii.eqb c "+"%char then (false, l')
      else (false, l)
  | [] => (false, l)
  end.

(** The exponent, if any, and then the end of the input. *)
Definition exponent (l : chars) : option Z :=
  match l with
  | [] => Some 0
  | c :: l' =>
      if Ascii.eqb (lower c) "e"%char then
        let '(neg, l1) := read_sign l' in
        match digitpart l1 with
        | Some (e, _, []) => Some (if neg then - e else e)
        | _ => None
        end
      else None
  end.

(** [m * 10^e] *)
Definition scale10 (m e : Z) : Q :=
  if 0 <=? e then inject_Z (m * 10 ^ e)
  else Qmake m (Z.to_pos (10 ^ (- e))).

(** The magnitude of a floatnumber: mantissa digits with the point removed,
    the number of digits after the point, the exponent. *)
Definition floatnumber (l : chars) : option Q :=
  match digitpart l with
  | Some (ip, _, l1) =>
      match l1 with
      | c :: l2 =>
          if Ascii.eqb c "."%char then
            match digitpart l2 with
            | Some (_, k, l3) =>
                (* digits of the fraction continue the integer part *)
                let '(m, _, _) := more_digits ip 0 l2 in
                option_map (fun e => scale10 m (e - Z.of_nat k)) (exponent l3)
            | None => option_map (scale10 ip) (exponent l2)
            end
          else option_map (scale10 ip) (exponent l1)
      | [] => Some (scale10 ip 0)
      end
  | None =>
      match l with
      | c :: l2 =>
          if Ascii.eqb c "."%char then
            match digitpart l2 with
            | Some (m, k, l3) =>
                option_map (fun e => scale10 m (e - Z.of_nat k)) (exponent l3)
            | None => None
            end
          else None
      | [] => None
      end
  end.

Definition word_is (w : string) (l : chars) : bool :=
  String.eqb w (string_of_list_ascii (map lower l)).

Definition float_of_string (s : string) : option pyfloat :=
  let '(neg, l) := read_sign (list_ascii_of_string (py_strip s)) in
  if word_is "inf" l || word_is "infinity" l then Some (Inf neg)
  else if word_is "nan" l then Some NaN
  else option_map (fun q => Fin (if neg then - q else q)%Q) (floatnumber l).

(** [parse_signed_token]: commas removed, then [float].  [None] is the
    [ValueError] of [float]. *)
Definition parse_signed_token (token : string) : option pyfloat :=
  float_of_string (remove_commas token).

(* ================================================================== *)
(** ** Regular expressions *)

Module Re.

Inductive regex : Type :=
| Void
| Eps
| Chr (p : ascii -> bool)
| Cat (r1 r2 : regex)
| Alt (r1 r2 : regex)
| Star (r : regex).

Fixpoint nullable (r : regex) : bool :=
  match r with
  | Void => false
  | Eps => true
  | Chr _ => false
  | Cat r1 r2 => nullable r1 && nullable r2
  | Alt r1 r2 => nullable r1 || nullable r2
  | Star _ => true
  end.

(** Brzozowski derivative *)
Fixpoint deriv (c : ascii) (r : regex) : regex :=
  match r with
  | Void => Void
  | Eps => Void
  | Chr p => if p c then Eps else Void
  | Cat r1 r2 =>
      if nullable r1 then Alt (Cat (deriv c r1) r2) (deriv c r2)
      else Cat (deriv c r1) r2
  | Alt r1 r2 => Alt (deriv c r1) (deriv c r2)
  | Star r1 => Cat (deriv c r1) (Star r1)
  end.

(** Does all of [l] belong to the language of [r]? *)
Fixpoint fullmatch (r : regex) (l : chars) : bool :=
  match l with
  | [] => nullable r
  | c :: l' => fullmatch (deriv c r) l'
  end.

(** The language of a regex, as a relation. *)
Inductive lang : regex -> chars -> Prop :=
| lang_eps : lang Eps []
| lang_chr p c : p c = true -> lang (Chr p) [c]
| lang_cat r1 r2 l1 l2 : lang r1 l1 -> lang r2 l2 -> lang (Cat r1 r2) (l1 ++ l2)
| lang_alt_l r1 r2 l : lang r1 l -> lang (Alt r1 r2) l
| lang_alt_r r1 r2 l : lang r2 l -> lang (Alt r1 r2) l
| lang_star_nil r : lang (Star r) []
| lang_star_cons r l1 l2 : lang r l1 -> lang (Star r) l2 -> lang (Star r) (l1 ++ l2).

Definition lit (c : ascii) : regex := Chr (Ascii.eqb c).
Definition opt (r : regex) : regex := Alt r Eps.
Definition plus (r : regex) : regex := Cat r (Star r).

End Re.

Import Re.

Definition sign_re : regex := Chr (fun c => Ascii.eqb c "+"%char || Ascii.eqb c "-"%char).
Definition digit_re : regex := Chr is_digit.
(** [(?:\.\d+)?] *)
Definition fraction_re : regex := opt (Cat (lit "."%char) (plus digit_re)).

(** [[+-][0-9]{1,3}(?:,[0-9]{3})*(?:\.\d+)?] *)
Definition grouped_re : regex :=
  Cat sign_re
    (Cat (Cat digit_re (Cat (opt digit_re) (opt digit_re)))
       (Cat (Star (Cat (lit ","%char) (Cat digit_re (Cat digit_re digit_re))))
          fraction_re)).

(** [[+-][0-9]+(?:\.\d+)?] *)
Definition plain_re : regex :=
  Cat sign_re (Cat (plus digit_re) fraction_re).

(** Group 1 of [SINGLE_SIGN_NUMBER_RE]. *)
Definition number_re : regex := Alt grouped_re plain_re.

(** [SINGLE_SIGN_NUMBER_RE.match(text)]: the pattern is
    [^\s*( number )\s*$].  No word of [number_re] holds a whitespace
    character, so a match exists exactly when the text without its
    surrounding whitespace is in the language of [number_re], and group 1 is
    then that stripped text.  [None] is "no match". *)
Definition SINGLE_SIGN_NUMBER_RE_match (text : string) : option string :=
  let t := py_strip text in
  if fullmatch number_re (list_ascii_of_string t) then Some t else None.

(* ================================================================== *)
(** ** The database

    Table [entries] is a list of rows, and [sqlite_sequence] is the counter
    that SQLite keeps under that name for its [AUTOINCREMENT] column.  Of
    table [meta] only the row with key ['rate'] is ever read or written;
    [meta_rate] is its [value] column, and [None] means that the row is
    absent. *)

(** One row of [entries].  Column [id] is [entry_id] here. *)
Record entry : Type := mk_entry {
  entry_id : Z;
  user_id : Z;
  username : string;
  amount_inr : Q;
  amount_usdt : Q;
  ts : string
}.

(** A TEXT value of [meta].  [ReprOf x] is the string [str(x)] that
    [set_rate] writes; Python reads it back as [x] ([float(str(x))] is [x],
    and NaN for NaN).  [Str s] is any text given by its characters. *)
Inductive text : Type :=
| Str (s : string)
| ReprOf (x : pyfloat).

(** [float(value)]; [None] is [ValueError]. *)
Definition float_of_text (t : text) : option pyfloat :=
  match t with
  | Str s => float_of_string s
  | ReprOf x => Some x
  end.

Record db : Type := mk_db {
  entries : list entry;
  sqlite_sequence : Z;
  meta_rate : option text
}.

(** A database file that does not exist yet. *)
Definition no_tables : db := mk_db [] 0 None.

(** [init_db]: [CREATE TABLE IF NOT EXISTS] twice, then
    [INSERT OR IGNORE INTO meta ... ('rate', str(DEFAULT_RATE))]. *)
Definition init_db (file : db) : db :=
  match meta_rate file with
  | Some _ => file
  | None => mk_db (entries file) (sqlite_sequence file) (Some (ReprOf DEFAULT_RATE))
  end.

(** [_db = init_db()] on a new file *)
Definition fresh_db : db := init_db no_tables.

(** [REPLACE INTO meta (key, value) VALUES ('rate', str(rate))] *)
Definition set_rate (rate : pyfloat) (s : db) : db :=
  mk_db (entries s) (sqlite_sequence s) (Some (ReprOf rate)).

(** [get_rate]: the value read, and the database afterwards (the function
    writes when the row is absent). *)
Definition get_rate (s : db) : pyfloat * db :=
  match meta_rate s with
  | Some r =>
      match float_of_text r with
      | Some x => (x, s)
      | None => (DEFAULT_RATE, s)
      end
  | None => (DEFAULT_RATE, set_rate DEFAULT_RATE s)
  end.

(** *** Sorting for [ORDER BY ... DESC] *)

Section SortDesc.
Context {A : Type}.
(** [ge x y]: the key of [x] is at least the key of [y]. *)
Variable ge : A -> A -> bool.

Fixpoint insert_desc (x : A) (l : list A) : list A :=
  match l with
  | [] => [x]
  | y :: l' => if ge x y then x :: l else y :: insert_desc x l'
  end.

Fixpoint sort_desc (l : list A) : list A :=
  match l with
  | [] => []
  | x :: l' => insert_desc x (sort_desc l')
  end.
End SortDesc.

Definition id_ge (x y : entry) : bool := entry_id y <=? entry_id x.

(** [LIMIT n]: a negative [n] is no limit. *)
Definition sql_limit {A : Type} (n : Z) (l : list A) : list A :=
  if n <? 0 then l else firstn (Z.to_nat n) l.

(** [SELECT MAX(id) FROM entries]; [None] is NULL. *)
Definition max_id (l : list entry) : option Z :=
  match l with
  | [] => None
  | e :: l' => Some (fold_left (fun m x => Z.max m (entry_id x)) l' (entry_id e))
  end.

(** The rowid an [AUTOINCREMENT] insert gets: one more than the largest
    rowid that has ever been in the table. *)
Definition next_rowid (s : db) : Z :=
  match max_id (entries s) with
  | Some m => Z.max (sqlite_sequence s) m + 1
  | None => sqlite_sequence s + 1
  end.

(** A float bound to a REAL column: finite values only in this model. *)
Definition to_real (x : pyfloat) : option Q :=
  match x with
  | Fin q => Some q
  | _ => None
  end.

(** [x and y or 0.0] *)
Definition and_or_zero (x y : pyfloat) : pyfloat :=
  let x_and_y := if truthy x then y else x in
  if truthy x_and_y then x_and_y else Fin 0.

(** [UPDATE entries SET amount_usdt = ? WHERE id = (SELECT MAX(id) FROM entries)] *)
Definition update_usdt_of_max (v : Q) (l : list entry) : list entry :=
  map (fun e =>
         match max_id l with
         | Some m =>
             if entry_id e =? m
             then mk_entry (entry_id e) (user_id e) (username e) (amount_inr e) v (ts e)
             else e
         | None => e
         end) l.

(** [add_entry]; [now] is [datetime.now().astimezone().isoformat()].  The
    result is [lastrowid] and the database afterwards; [None] when one of
    the bound amounts is not finite. *)
Definition add_entry (now : string) (uid : Z) (uname : string)
    (inr usdt : pyfloat) (s : db) : option (Z * db) :=
  match to_real inr, to_real (and_or_zero inr usdt), to_real usdt with
  | Some a, Some first, Some u =>
      let rowid := next_rowid s in
      let inserted := entries s ++ [mk_entry rowid uid uname a first now] in
      Some (rowid, mk_db (update_usdt_of_max u inserted) rowid (meta_rate s))
  | _, _, _ => None
  end.

(** A value bound to a REAL column.  The [sqlite3] module binds a Python
    float as a double; SQLite stores a NaN as NULL and every other double,
    the infinities too, as it is. *)
Inductive sql_real : Type :=
| SqlNull
| SqlDouble (x : pyfloat).

Definition sql_bind (x : pyfloat) : sql_real :=
  match x with
  | NaN => SqlNull
  | _ => SqlDouble x
  end.

(** A row of [entries] as SQLite holds it: its two REAL columns may be
    NULL or infinite. *)
Record stored_entry : Type := mk_stored {
  stored_id : Z;
  stored_user_id : Z;
  stored_username : string;
  stored_inr : sql_real;
  stored_usdt : sql_real;
  stored_ts : string
}.

(** A row of finite amounts, as SQLite holds it. *)
Definition stored_of (e : entry) : stored_entry :=
  mk_stored (entry_id e) (user_id e) (username e)
            (SqlDouble (Fin (amount_inr e))) (SqlDouble (Fin (amount_usdt e)))
            (ts e).

(** [SELECT MAX(id) FROM entries] on such rows *)
Definition stored_max_id (rows : list stored_entry) : option Z :=
  match rows with
  | [] => None
  | e :: l => Some (fold_left (fun m x => Z.max m (stored_id x)) l (stored_id e))
  end.

(** [add_entry] for any two floats, on the rows of the table and its
    [AUTOINCREMENT] counter: the same [INSERT] and the same [UPDATE] as in
    [add_entry], every float being bound by [sql_bind].  The result is
    [lastrowid] and the rows afterwards. *)
Definition add_entry_stored (now : string) (uid : Z) (uname : string)
    (inr usdt : pyfloat) (rows : list stored_entry) (counter : Z)
    : Z * list stored_entry :=
  let rowid :=
    match stored_max_id rows with
    | Some m => Z.max counter m + 1
    | None => counter + 1
    end in
  let inserted :=
    rows ++ [mk_stored rowid uid uname
                       (sql_bind inr) (sql_bind (and_or_zero inr usdt)) now] in
  (rowid,
   map (fun e =>
          match stored_max_id inserted with
          | Some m =>
              if stored_id e =? m
              then mk_stored (stored_id e) (stored_user_id e) (stored_username e)
                             (stored_inr e) (sql_bind usdt) (stored_ts e)
              else e
          | None => e
          end) inserted).

(** [delete_last_entry]: the deleted id, or [None]. *)
Definition delete_last_entry (s : db) : option Z * db :=
  match sort_desc id_ge (entries s) with
  | [] => (None, s)
  | row :: _ =>
      let last_id := entry_id row in
      (Some last_id,
       mk_db (filter (fun e => negb (entry_id e =? last_id)) (entries s))
             (sqlite_sequence s) (meta_rate s))
  end.

(** [reset_ledger]: [DELETE FROM entries] *)
Definition reset_ledger (s : db) : db :=
  mk_db [] (sqlite_sequence s) (meta_rate s).

(** [get_last_entries(limit)]; the rows are given whole, the query selects
    all their columns but [user_id]. *)
Definition get_last_entries (limit : Z) (s : db) : list entry :=
  sql_limit limit (sort_desc id_ge (entries s)).

(* ================================================================== *)
(** ** [build_report] *)

(** A row of the per-user query: username, [s_inr], [s_usdt]. *)
Definition user_total : Type := string * Q * Q.

Definition ut_name (r : user_total) : string := fst (fst r).
Definition ut_inr (r : user_total) : Q := snd (fst r).
Definition ut_usdt (r : user_total) : Q := snd r.

(** [GROUP BY username] with the two [SUM]s: each row is added to the group
    of its username, a username not seen before opens a group. *)
Fixpoint add_to_group (e : entry) (groups : list user_total) : list user_total :=
  match groups with
  | [] => [(username e, amount_inr e, amount_usdt e)]
  | g :: rest =>
      if String.eqb (ut_name g) (username e)
      then (ut_name g, ut_inr g + amount_inr e, ut_usdt g + amount_usdt e)%Q :: rest
      else g :: add_to_group e rest
  end.

Definition group_by_username (l : list entry) : list user_total :=
  fold_left (fun groups e => add_to_group e groups) l [].

Definition s_inr_ge (x y : user_total) : bool := Qle_bool (ut_inr y) (ut_inr x).

(** The per-user query, [... GROUP BY username ORDER BY s_inr DESC].  The
    username column is never NULL (every caller of [add_entry] passes a
    [str]), so [COALESCE(username, "Unknown")] is the username.  SQL leaves
    the order of groups with equal [s_inr] open; here they keep the order in
    which their usernames first occur. *)
Definition per_user_query (s : db) : list user_total :=
  sort_desc s_inr_ge (group_by_username (entries s)).

(** The loop that takes the row of [last_user] out of [per_user]. *)
Fixpoint split_last_user (last_user : string) (per_user : list user_total)
    (found : option user_total) (reordered : list user_total)
    : option user_total * list user_total :=
  match per_user with
  | [] => (found, reordered)
  | r :: rest =>
      if String.eqb (ut_name r) last_user
      then split_last_user last_user rest (Some r) reordered
      else split_last_user last_user rest found (reordered ++ [r])
  end.

(** The rows of the per-user section in the order they are written, for a
    non-empty [per_user]. *)
Definition reorder_per_user (recent : list entry) (per_user : list user_total)
    : list user_total :=
  let last_user :=
    match recent with
    | e :: _ => Some (username e)
    | [] => None
    end in
  match last_user with
  | Some u =>
      if String.eqb u "" then per_user          (* [if last_user:] fails *)
      else
        match split_last_user u per_user None [] with
        | (Some found, reordered) => found :: reordered
        | (None, _) => per_user
        end
  | None => per_user
  end.

(** [SUM(...)] over all rows of a table; NULL ([None]) on no rows. *)
Definition sql_sum (l : list Q) : option Q :=
  match l with
  | [] => None
  | _ => Some (fold_left Qplus l 0%Q)
  end.

(** [CASE WHEN a>0 THEN a ELSE 0 END] and [CASE WHEN a<0 THEN a ELSE 0 END] *)
Definition when_positive (a : Q) : Q := if Qlt_bool 0 a then a else 0%Q.
Definition when_negative (a : Q) : Q := if Qlt_bool a 0 then a else 0%Q.

(** [v or 0.0] *)
Definition or_zero (v : option Q) : Q :=
  match v with
  | Some q => if Qeq_bool q 0 then 0%Q else q
  | None => 0%Q
  end.

Record totals : Type := mk_totals {
  gross_inr : Q;
  refunded_inr : Q;
  net_inr : Q;
  gross_usdt : Q;
  refunded_usdt : Q;
  net_usdt : Q
}.

(** The totals block of [build_report]. *)
Definition totals_block (s : db) : totals :=
  let row0 := sql_sum (map (fun e => when_positive (amount_inr e)) (entries s)) in
  let row1 := sql_sum (map (fun e => when_negative (amount_inr e)) (entries s)) in
  let row2 := sql_sum (map (fun e => when_positive (amount_usdt e)) (entries s)) in
  let row3 := sql_sum (map (fun e => when_negative (amount_usdt e)) (entries s)) in
  let gross_inr := or_zero row0 in
  let refunded_inr := (- or_zero row1)%Q in
  let gross_usdt := or_zero row2 in
  let refunded_usdt := (- or_zero row3)%Q in
  mk_totals gross_inr refunded_inr (gross_inr - refunded_inr)%Q
            gross_usdt refunded_usdt (gross_usdt - refunded_usdt)%Q.

(** The lines of the report.  A line keeps the values that its f-string
    formats ([format_commas], [format_num], the local-time conversion of the
    timestamp are presentation and not modelled). *)
Inductive line : Type :=
| LTitle
| LBlank
| LUserTotal (uname : string) (s_inr s_usdt : Q)
| LNoUserTotals
| LRecentHeader
| LTimestamp (stored_ts : string)
| LRecentEntry (uname : string) (nonneg : bool) (abs_inr abs_usdt : Q)
| LNoRecent
| LGrossInr (v : Q)
| LRefundedInr (v : Q)
| LNetInr (v : Q)
| LGrossUsdt (v : Q)
| LRefundedUsdt (v : Q)
| LNetUsdt (v : Q)
| LRate (rate : pyfloat).

(** The rows written in the per-user section. *)
Definition per_user_rows (latest_n : Z) (s : db) : list user_total :=
  match per_user_query s with
  | [] => []
  | per_user => reorder_per_user (get_last_entries latest_n s) per_user
  end.

Definition per_user_lines (latest_n : Z) (s : db) : list line :=
  match per_user_query s with
  | [] => [LNoUserTotals]
  | _ => map (fun r => LUserTotal (ut_name r) (ut_inr r) (ut_usdt r))
             (per_user_rows latest_n s)
  end.

Definition recent_lines (recent : list entry) : list line :=
  match recent with
  | [] => [LNoRecent; LBlank]
  | _ =>
      flat_map (fun e =>
                  [LTimestamp (ts e);
                   LRecentEntry (username e) (Qle_bool 0 (amount_inr e))
                                (Qabs (amount_inr e)) (Qabs (amount_usdt e));
                   LBlank]) recent
  end.

(** [build_report(latest_n)]: the lines, and the database afterwards (the
    final [get_rate()] may write). *)
Definition build_report (latest_n : Z) (s : db) : list line * db :=
  let recent := get_last_entries latest_n s in
  let t := totals_block s in
  let '(rate, s') := get_rate s in
  ([LTitle; LBlank]
     ++ per_user_lines latest_n s
     ++ [LBlank; LRecentHeader]
     ++ recent_lines recent
     ++ [LGrossInr (gross_inr t); LRefundedInr (refunded_inr t); LNetInr (net_inr t);
         LBlank;
         LGrossUsdt (gross_usdt t); LRefundedUsdt (refunded_usdt t); LNetUsdt (net_usdt t);
         LBlank;
         LRate rate],
   s').

(* ================================================================== *)
(** ** Handlers

    What a handler reads of the Telegram update it is called with.  Replies
    sent to the chat are not part of the state and are left out; a handler
    is its effect on the database.  [None] as result: the handler would
    store an amount that is not finite (see [to_real]). *)

(** [reply_to_message.from_user] *)
Record tg_user : Type := mk_tg_user {
  tg_id : Z;
  tg_username : option string;
  tg_first_name : option string;
  tg_last_name : option string
}.

Record update : Type := mk_update {
  (** [update.message.text] *)
  msg_text : string;
  (** the author of the message replied to, if the message is a reply *)
  reply_to : option tg_user;
  (** [get_chat_member(chat, sender).status]; [None] if the call raises *)
  sender_status : option string;
  (** [context.args] *)
  args : list string;
  (** the clock, as [add_entry] formats it *)
  now : string
}.

(** [member.status in ("administrator", "creator")], the check having
    succeeded *)
Definition sender_is_admin (u : update) : bool :=
  match sender_status u with
  | Some st => String.eqb st "administrator" || String.eqb st "creator"
  | None => false
  end.

(** [x or ''] *)
Definition or_empty (x : option string) : string :=
  match x with
  | Some s => s
  | None => ""
  end.

(** [target.username or f"{target.first_name or ''} {target.last_name or ''}".strip()] *)
Definition target_name (target : tg_user) : string :=
  match tg_username target with
  | Some (String c n) => String c n
  | _ => py_strip (or_empty (tg_first_name target) ++ " " ++ or_empty (tg_last_name target))
  end.

(** [val / rate if rate != 0 else 0.0] *)
Definition to_usdt (val rate : pyfloat) : pyfloat :=
  if float_ne0 rate then float_div val rate else Fin 0.

(** [0.00001] *)
Definition MIN_MAGNITUDE : pyfloat := Fin (1 # 100000).

Definition message_handler (u : update) (s : db) : option db :=
  if String.eqb (msg_text u) "" then Some s else
  let text := py_strip (msg_text u) in
  match reply_to u with
  | None => Some s
  | Some target =>
      match SINGLE_SIGN_NUMBER_RE_match text with
      | None => Some s
      | Some group1 =>
          if negb (sender_is_admin u) then Some s else
          match parse_signed_token group1 with
          | None => Some s
          | Some val =>
              if float_lt (float_abs val) MIN_MAGNITUDE then Some s else
              let '(rate, s1) := get_rate s in
              let usdt := to_usdt val rate in
              match add_entry (now u) (tg_id target) (target_name target) val usdt s1 with
              | Some (_, s2) => Some (snd (build_report 10 s2))
              | None => None
              end
          end
      end
  end.

Definition rate_cmd (u : update) (s : db) : db :=
  if negb (sender_is_admin u) then s else
  match args u with
  | [] => snd (get_rate s)
  | a :: _ =>
      match float_of_string a with
      | Some r => if float_le r (Fin 0) then s else set_rate r s
      | None => s
      end
  end.

Definition summary_cmd (u : update) (s : db) : db :=
  snd (build_report 12 s).

(** The two branches of [add_cmd] end alike. *)
Definition add_cmd_store (now : string) (uid : Z) (name amount : string) (s : db)
    : option db :=
  match float_of_string (remove_commas amount) with
  | None => Some s
  | Some val =>
      let '(rate, s1) := get_rate s in
      let usdt := to_usdt val rate in
      option_map snd (add_entry now uid name val usdt s1)
  end.

Definition add_cmd (u : update) (s : db) : option db :=
  if negb (sender_is_admin u) then Some s else
  match reply_to u, args u with
  | Some target, [a] => add_cmd_store (now u) (tg_id target) (target_name target) a s
  | _, [name; a] => add_cmd_store (now u) 0 name a s
  | _, _ => Some s
  end.

Definition undo_cmd (u : update) (s : db) : db :=
  if negb (sender_is_admin u) then s else snd (delete_last_entry s).

(** [reset_callback]; [data] is [query.data], and the status is that of
    the user who pressed the button. *)
Definition reset_callback (data : string) (u : update) (s : db) : db :=
  if String.eqb data "reset_cancel" then s else
  if negb (sender_is_admin u) then s else
  snd (build_report 10 (reset_ledger s)).

(** The updates the application dispatches.  [ledger_cmd], [myentries_cmd],
    [export_cmd] and [reset_cmd] only read the database. *)
Inductive event : Type :=
| OnMessage (u : update)
| OnRate (u : update)
| OnSummary (u : update)
| OnAdd (u : update)
| OnUndo (u : update)
| OnResetCallback (data : string) (u : update)
| OnReadOnly (u : update).

Definition handle (ev : event) (s : db) : option db :=
  match ev with
  | OnMessage u => message_handler u s
  | OnRate u => Some (rate_cmd u s)
  | OnSummary u => Some (summary_cmd u s)
  | OnAdd u => add_cmd u s
  | OnUndo u => Some (undo_cmd u s)
  | OnResetCallback data u => Some (reset_callback data u s)
  | OnReadOnly _ => Some s
  end.

(** The databases the program reaches from a new file. *)
Inductive reachable : db -> Prop :=
| reach_fresh : reachable fresh_db
| reach_step s ev s' : reachable s -> handle ev s = Some s' -> reachable s'.

(* ================================================================== *)
(** ** The listing handlers

    [ledger_cmd], [myentries_cmd] and [export_cmd] read the table and
    answer; what is given here is the answer, with the values that its lines
    format. *)

(** [int(s)], base 10: surrounding whitespace ignored, an optional sign,
    then digits with single underscores between them.  [None] is
    [ValueError]. *)
Definition int_of_string (s : string) : option Z :=
  let '(neg, l) := read_sign (list_ascii_of_string (py_strip s)) in
  match digitpart l with
  | Some (v, _, []) => Some (if neg then - v else v)
  | _ => None
  end.

(** The limit of [ledger_cmd] and [myentries_cmd]:
<<
    limit = 10
    if args:
        try: limit = min(100, max(1, int(args[0])))
        except: pass
>> *)
Definition cmd_limit (args : list string) : Z :=
  match args with
  | [] => 10
  | a :: _ =>
      match int_of_string a with
      | Some n => Z.min 100 (Z.max 1 n)
      | None => 10
      end
  end.

(** [ts.replace('T',' ')[:19]] *)
Definition short_ts (stored : string) : string :=
  string_of_list_ascii
    (firstn 19
       (map (fun c => if Ascii.eqb c "T"%char then " "%char else c)
            (list_ascii_of_string stored))).

(** A line of a listing: the id, the username ([ledger_cmd] only),
    [inr >= 0], [abs(inr)], [abs(usdt)] and the shortened timestamp. *)
Record listed : Type := mk_listed {
  listed_id : Z;
  listed_name : option string;
  listed_nonneg : bool;
  listed_abs_inr : Q;
  listed_abs_usdt : Q;
  listed_ts : string
}.

Definition listed_of (with_name : bool) (e : entry) : listed :=
  mk_listed (entry_id e)
            (if with_name then Some (username e) else None)
            (Qle_bool 0 (amount_inr e))
            (Qabs (amount_inr e)) (Qabs (amount_usdt e))
            (short_ts (ts e)).

(** The answer of a listing: the placeholder text, or the lines. *)
Inductive listing : Type :=
| NoEntries
| Lines (lines : list listed).

Definition listing_of (with_name : bool) (rows : list entry) : listing :=
  match rows with
  | [] => NoEntries
  | _ => Lines (map (listed_of with_name) rows)
  end.



(** The rows that [myentries_cmd] lists,
    [... WHERE user_id = ? ORDER BY id DESC LIMIT ?]; [sender] is
    [update.message.from_user.id]. *)
Definition myentries_rows (sender : Z) (u : update) (s : db) : list entry :=
  sql_limit (cmd_limit (args u))
            (sort_desc id_ge (filter (fun e => user_id e =? sender) (entries s))).

Definition myentries_cmd (sender : Z) (u : update) (s : db) : listing :=
  listing_of false (myentries_rows sender u s).

Definition id_le (x y : entry) : bool := entry_id x <=? entry_id y.

(** [SELECT ... FROM entries ORDER BY id]: the insertion sort of
    [sort_desc], on the converse order. *)
Definition order_by_id (l : list entry) : list entry := sort_desc id_le l.

(** A row of the CSV file: id, username, amount_inr, amount_usdt, ts. *)
Definition csv_row : Type := Z * string * Q * Q * string.

Definition csv_of (e : entry) : csv_row :=
  (entry_id e, username e, amount_inr e, amount_usdt e, ts e).

(** The answer of [export_cmd]: a refusal, the text "No entries to
    export.", or the document with its header and rows. *)
Inductive export : Type :=
| ExportRefused
| ExportNothing
| ExportCsv (header : list string) (rows : list csv_row).

Definition export_cmd (u : update) (s : db) : export :=
  if negb (sender_is_admin u) then ExportRefused else
  match order_by_id (entries s) with
  | [] => ExportNothing
  | rows =>
      ExportCsv ["id"; "username"; "amount_inr"; "amount_usdt"; "timestamp"]%string
                (map csv_of rows)
  end.

(* ================================================================== *)
(** * Vocabulary of the statements *)

(** The ids of the table; [id] is its PRIMARY KEY, so they are distinct. *)
Definition ids (s : db) : list Z := map entry_id (entries s).

(** The sum of a list of amounts. *)
Definition Qsum (l : list Q) : Q := fold_right Qplus 0%Q l.

Definition is_nonneg (a : Q) : bool := Qle_bool 0 a.
Definition is_negative (a : Q) : bool := Qlt_bool a 0.

(** The rows of a username. *)
Definition rows_of (u : string) (l : list entry) : list entry :=
  filter (fun e => String.eqb (username e) u) l.

(** A group carries the sums of the rows of its username. *)
Definition sums_of (l : list entry) (g : user_total) : Prop :=
  (ut_inr g == Qsum (map amount_inr (rows_of (ut_name g) l)))%Q /\
  (ut_usdt g == Qsum (map amount_usdt (rows_of (ut_name g) l)))%Q.

(** Every row but the one named [u], in the order of the list. *)
Definition others (u : string) (l : list user_total) : list user_total :=
  filter (fun r => negb (String.eqb (ut_name r) u)) l.

(** [x] comes before [y] in [ORDER BY s_inr DESC]. *)
Definition s_inr_geP (x y : user_total) : Prop := (ut_inr y <= ut_inr x)%Q.

(** Both amounts on the same side of zero. *)
Definition same_sign (a b : Q) : Prop :=
  (0 <= a /\ 0 <= b)%Q \/ (a <= 0 /\ b <= 0)%Q.

Definition entry_same_sign (e : entry) : Prop :=
  same_sign (amount_inr e) (amount_usdt e).

(** The rate that the next conversion will use is not [<= 0]. *)
Definition rate_not_le_0 (s : db) : Prop :=
  float_le (fst (get_rate s)) (Fin 0) = false.

Definition ledger_inv (s : db) : Prop :=
  Forall entry_same_sign (entries s) /\ rate_not_le_0 s.

(** The rows after a handler are rows from before, or the one new row. *)
Definition old_or_appended (s s' : db) : Prop :=
  forall e, In e (entries s') -> In e (entries s) \/ entries s' = entries s ++ [e].

(** ** The shape of a token *)

Definition all_digits (l : chars) : Prop := Forall (fun c => is_digit c = true) l.

Definition is_sign (c : ascii) : bool :=
  Ascii.eqb c "+"%char || Ascii.eqb c "-"%char.

(** The part after the integer digits: nothing, or a point and digits. *)
Definition fraction (l : chars) : Prop :=
  l = [] \/ exists fd, l = "."%char :: fd /\ fd <> [] /\ all_digits fd.

(** A sign, digits, and a fraction: what the number format leaves once the
    commas are removed. *)
Inductive plain_number : chars -> Prop :=
| plain_number_intro sg ds frac :
    is_sign sg = true -> ds <> [] -> all_digits ds -> fraction frac ->
    plain_number (sg :: ds ++ frac).

(** ** Sample data *)

(** The handlers run one after the other. *)
Fixpoint run (evs : list event) (s : db) : option db :=
  match evs with
  | [] => Some s
  | ev :: evs' =>
      match handle ev s with
      | Some s' => run evs' s'
      | None => None
      end
  end.

(** An update sent by an administrator. *)
Definition from_admin (text : string) (reply : option tg_user) (args : list string)
    : update :=
  mk_update text reply (Some "administrator"%string) args
            "2024-05-01T10:00:00+05:30"%string.

Definition alice : tg_user :=
  mk_tg_user 11 (Some "alice"%string) (Some "Alice"%string) None.
Definition bob : tg_user :=
  mk_tg_user 22 None (Some "Bob"%string) (Some "B."%string).

(** The reply [+1,000] to a message of Alice. *)
Definition reply_plus_1000 : update := from_admin "+1,000" (Some alice) [].

(** [/rate 90] *)
Definition rate_90 : update := from_admin "/rate 90" None ["90"%string].

(** [/add bob 0] *)
Definition add_bob_zero : update :=
  from_admin "/add bob 0" None ["bob"; "0"]%string.

(** A database whose stored rate is the text [abc]. *)
Definition db_with_rate_abc : db := mk_db [] 0 (Some (Str "abc")).

(** Alice gets +1,000, then Bob gets +50 and, by [/add], -20.5 . *)
Definition sample_events : list event :=
  [OnMessage reply_plus_1000;
   OnMessage (from_admin " +50 " (Some bob) []);
   OnAdd (from_admin "/add -20.5" (Some bob) ["-20.5"])]%string.

(** The database after [sample_events], from a new file. *)
Definition sample_db : db :=
  Eval vm_compute in
    match run sample_events fresh_db with
    | Some s => s
    | None => fresh_db
    end.

(** The row of [sample_db] with the largest id. *)
Definition sample_last : entry :=
  mk_entry 3 22 "Bob B." (-205 # 10) (-2050 # 9350) "2024-05-01T10:00:00+05:30".

(** ** Further vocabulary *)

(** Ids from the largest down, and from the smallest up. *)
Definition id_desc (x y : entry) : Prop := entry_id y <= entry_id x.
Definition id_asc (x y : entry) : Prop := entry_id x <= entry_id y.

(** What a handler can do to table [entries] and its counter: nothing,
    append one converted row under the next rowid, delete the rows of one
    id, or delete all rows. *)
Inductive table_change (s s' : db) : Prop :=
| tc_same :
    entries s' = entries s -> sqlite_sequence s' = sqlite_sequence s ->
    table_change s s'
| tc_append uid name a u stamp :
    to_usdt (Fin a) (fst (get_rate s)) = Fin u ->
    entries s' = entries s ++ [mk_entry (next_rowid s) uid name a u stamp] ->
    sqlite_sequence s' = next_rowid s ->
    table_change s s'
| tc_delete last_id :
    entries s' = filter (fun e => negb (entry_id e =? last_id)) (entries s) ->
    sqlite_sequence s' = sqlite_sequence s ->
    table_change s s'
| tc_clear :
    entries s' = [] -> sqlite_sequence s' = sqlite_sequence s ->
    table_change s s'.

(** The ids are positive, increase along the table, and none is above the
    counter. *)
Definition ids_in_order (s : db) : Prop :=
  StronglySorted Z.lt (ids s) /\
  Forall (fun i => 0 < i <= sqlite_sequence s) (ids s) /\
  0 <= sqlite_sequence s.

(** The two amounts of a stored row on the same side of zero; NULL is on
    no side. *)
Definition stored_same_sign (row : stored_entry) : Prop :=
  match stored_inr row, stored_usdt row with
  | SqlDouble a, SqlDouble b =>
      (float_le (Fin 0) a = true /\ float_le (Fin 0) b = true) \/
      (float_le a (Fin 0) = true /\ float_le b (Fin 0) = true)
  | _, _ => False
  end.

(** The rows of a database, as SQLite holds them. *)
Definition stored_rows (s : db) : list stored_entry := map stored_of (entries s).

(** An update sent by a plain member of the chat. *)
Definition from_member (text : string) (reply : option tg_user) (args : list string)
    : update :=
  mk_update text reply (Some "member"%string) args
            "2024-05-01T10:00:00+05:30"%string.

(** [+5] in reply to Alice, by a plain member. *)
Definition member_reply : update := from_member "+5" (Some alice) [].

(** [/rate nan], then [+5] in reply to Alice or [/add bob 5], all by an
    administrator. *)
Definition rate_nan : update := from_admin "/rate nan" None ["nan"%string].
Definition reply_plus_5 : update := from_admin "+5" (Some alice) [].
Definition add_bob_5 : update := from_admin "/add bob 5" None ["bob"; "5"]%string.

(** A deleted account: no username, an empty first name. *)
Definition ghost : tg_user := mk_tg_user 33 None (Some ""%string) None.

(** Alice gets +1,000, then the deleted account gets +50. *)
Definition ghost_events : list event :=
  [OnMessage reply_plus_1000;
   OnMessage (from_admin "+50" (Some ghost) [])]%string.

Definition ghost_db : db :=
  Eval vm_compute in
    match run ghost_events fresh_db with
    | Some s => s
    | None => fresh_db
    end.

(** [/add bob 250] and [/undo], by an administrator. *)
Definition add_bob_250 : update :=
  from_admin "/add bob 250" None ["bob"; "250"]%string.
Definition undo_update : update := from_admin "/undo" None [].

(* ================================================================== *)
(** * Properties *)

(** ** Sorting *)

Section SortDescFacts.
Context {A : Type}.
Variable ge : A -> A -> bool.

Lemma insert_desc_perm x l : Permutation (x :: l) (insert_desc ge x l).
Proof.
  induction l as [|y l IH]; simpl.
  - apply Permutation_refl.
  - destruct (ge x y).
    + apply Permutation_refl.
    + eapply perm_trans; [apply perm_swap|].
      now apply perm_skip.
Qed.

Lemma sort_desc_perm l : Permutation l (sort_desc ge l).
Proof.
  induction l as [|x l IH]; simpl.
  - constructor.
  - eapply perm_trans; [|apply insert_desc_perm].
    now apply perm_skip.
Qed.

Lemma sort_desc_In l x : In x (sort_desc ge l) <-> In x l.
Proof.
  split; apply Permutation_in;
    [apply Permutation_sym|]; apply sort_desc_perm.
Qed.

Lemma sort_desc_nil l : sort_desc ge l = [] -> l = [].
Proof.
  intros H. apply Permutation_nil.
  rewrite <- H. apply Permutation_sym, sort_desc_perm.
Qed.

Hypothesis ge_total : forall x y, ge x y = false -> ge y x = true.
Hypothesis ge_trans : forall x y z, ge x y = true -> ge y z = true -> ge x z = true.

Lemma insert_desc_sorted x l :
  StronglySorted (fun x y => ge x y = true) l ->
  StronglySorted (fun x y => ge x y = true) (insert_desc ge x l).
Proof.
  induction 1 as [|y l Hs IH Hall]; simpl.
  - repeat constructor.
  - destruct (ge x y) eqn:E.
    + constructor; [now constructor|].
      constructor; [exact E|].
      eapply Forall_impl; [|exact Hall].
      intros z Hz. exact (ge_trans _ _ _ E Hz).
    + constructor; [exact IH|].
      apply (Permutation_Forall (insert_desc_perm x l)).
      constructor; [now apply ge_total | exact Hall].
Qed.

Lemma sort_desc_sorted l : StronglySorted (fun x y => ge x y = true) (sort_desc ge l).
Proof.
  induction l as [|x l IH]; simpl.
  - constructor.
  - now apply insert_desc_sorted.
Qed.

(** The first row of the sorted list dominates every row. *)
Lemma sort_desc_head l x rest :
  sort_desc ge l = x :: rest -> forall y, In y l -> y = x \/ ge x y = true.
Proof.
  intros H y Hy.
  pose proof (sort_desc_sorted l) as Hs. rewrite H in Hs.
  apply sort_desc_In in Hy. rewrite H in Hy.
  destruct Hy as [->|Hy]; [now left|right].
  apply StronglySorted_inv in Hs. destruct Hs as [_ Hall].
  rewrite Forall_forall in Hall. now apply Hall.
Qed.
End SortDescFacts.

Lemma id_ge_total x y : id_ge x y = false -> id_ge y x = true.
Proof. unfold id_ge. intros H. apply Z.leb_gt in H. apply Z.leb_le. lia. Qed.

Lemma id_ge_trans x y z : id_ge x y = true -> id_ge y z = true -> id_ge x z = true.
Proof. unfold id_ge. rewrite !Z.leb_le. lia. Qed.

Lemma s_inr_ge_total x y : s_inr_ge x y = false -> s_inr_ge y x = true.
Proof.
  unfold s_inr_ge. intros H. apply Qle_bool_iff.
  destruct (Qlt_le_dec (ut_inr x) (ut_inr y)) as [Hlt|Hle].
  - now apply Qlt_le_weak.
  - apply Qle_bool_iff in Hle. congruence.
Qed.

Lemma s_inr_ge_trans x y z :
  s_inr_ge x y = true -> s_inr_ge y z = true -> s_inr_ge x z = true.
Proof.
  unfold s_inr_ge. rewrite !Qle_bool_iff. intros H1 H2.
  eapply Qle_trans; eassumption.
Qed.

(** ** Row ids *)

Lemma fold_max_ge l m :
  m <= fold_left (fun m x => Z.max m (entry_id x)) l m.
Proof.
  revert m. induction l as [|x l IH]; intros m; simpl.
  - lia.
  - specialize (IH (Z.max m (entry_id x))). lia.
Qed.

Lemma fold_max_bound l m b :
  m <= b -> (forall x, In x l -> entry_id x <= b) ->
  fold_left (fun m x => Z.max m (entry_id x)) l m <= b.
Proof.
  revert m. induction l as [|x l IH]; intros m Hm Hl; simpl.
  - exact Hm.
  - apply IH.
    + specialize (Hl x (or_introl eq_refl)). lia.
    + intros y Hy. apply Hl. now right.
Qed.

Lemma fold_max_In l m x :
  In x l -> entry_id x <= fold_left (fun m x => Z.max m (entry_id x)) l m.
Proof.
  revert m. induction l as [|y l IH]; intros m Hx; simpl.
  - destruct Hx.
  - destruct Hx as [->|Hx].
    + pose proof (fold_max_ge l (Z.max m (entry_id x))). lia.
    + now apply IH.
Qed.

Lemma max_id_ge l m x : max_id l = Some m -> In x l -> entry_id x <= m.
Proof.
  destruct l as [|e l]; [discriminate|]. simpl.
  intros [= <-] [->|Hx].
  - apply fold_max_ge.
  - now apply fold_max_In.
Qed.

Lemma max_id_snoc l e :
  (forall x, In x l -> entry_id x < entry_id e) ->
  max_id (l ++ [e]) = Some (entry_id e).
Proof.
  intros Hlt. destruct l as [|y l]; simpl; [reflexivity|].
  f_equal. apply Z.le_antisymm.
  - apply fold_max_bound.
    + specialize (Hlt y (or_introl eq_refl)). lia.
    + intros x Hx. apply in_app_or in Hx. destruct Hx as [Hx|[<-|[]]].
      * specialize (Hlt x (or_intror Hx)). lia.
      * lia.
  - apply fold_max_In. apply in_or_app. right. now left.
Qed.

Lemma next_rowid_fresh s x : In x (entries s) -> entry_id x < next_rowid s.
Proof.
  intros Hx. unfold next_rowid.
  destruct (max_id (entries s)) as [m|] eqn:E.
  - pose proof (max_id_ge _ _ _ E Hx). lia.
  - destruct (entries s); [destruct Hx | discriminate].
Qed.

Lemma update_usdt_of_max_snoc l e v :
  (forall x, In x l -> entry_id x < entry_id e) ->
  update_usdt_of_max v (l ++ [e])
  = l ++ [mk_entry (entry_id e) (user_id e) (username e) (amount_inr e) v (ts e)].
Proof.
  intros Hlt. unfold update_usdt_of_max.
  rewrite (max_id_snoc l e Hlt), map_app. simpl.
  rewrite Z.eqb_refl. f_equal.
  rewrite <- (map_id l) at 2. apply map_ext_in.
  intros x Hx. specialize (Hlt x Hx).
  destruct (entry_id x =? entry_id e) eqn:E; [|reflexivity].
  apply Z.eqb_eq in E. lia.
Qed.

(** What [add_entry] does to the table, for finite amounts. *)
Lemma add_entry_finite now uid uname a u s :
  add_entry now uid uname (Fin a) (Fin u) s
  = Some (next_rowid s,
          mk_db (entries s ++ [mk_entry (next_rowid s) uid uname a u now])
                (next_rowid s) (meta_rate s)).
Proof.
  unfold add_entry. simpl to_real.
  assert (Hfirst : exists f, to_real (and_or_zero (Fin a) (Fin u)) = Some f).
  { unfold and_or_zero. destruct (truthy (Fin a)); simpl.
    - destruct (negb (Qeq_bool u 0)); simpl; eauto.
    - destruct (negb (Qeq_bool a 0)); simpl; eauto. }
  destruct Hfirst as [f ->].
  rewrite update_usdt_of_max_snoc; [reflexivity|].
  simpl. apply next_rowid_fresh.
Qed.

(** ** The store *)

Lemma sql_limit_In {A : Type} (n : Z) (l : list A) x : In x (sql_limit n l) -> In x l.
Proof.
  unfold sql_limit. destruct (n <? 0); [trivial|].
  intros H. rewrite <- (firstn_skipn (Z.to_nat n) l).
  apply in_or_app. now left.
Qed.

Lemma get_last_entries_In limit s e :
  In e (get_last_entries limit s) -> In e (entries s).
Proof.
  intros H. apply sql_limit_In in H. now apply sort_desc_In in H.
Qed.

Lemma delete_by_id_perm (l : list entry) e :
  NoDup (map entry_id l) -> In e l ->
  Permutation l (e :: filter (fun x => negb (entry_id x =? entry_id e)) l).
Proof.
  induction l as [|y l IH]; intros Hnd Hin; [destruct Hin|].
  simpl in Hnd. apply NoDup_cons_iff in Hnd. destruct Hnd as [Hny Hnd].
  simpl. destruct Hin as [->|Hin].
  - rewrite Z.eqb_refl. simpl. apply perm_skip.
    assert (Hsame : filter (fun x => negb (entry_id x =? entry_id e)) l = l).
    { apply forallb_filter_id. apply forallb_forall. intros x Hx.
      destruct (entry_id x =? entry_id e) eqn:E; [|reflexivity].
      apply Z.eqb_eq in E. exfalso. apply Hny. rewrite <- E. now apply in_map. }
    rewrite Hsame. apply Permutation_refl.
  - destruct (entry_id y =? entry_id e) eqn:E.
    + apply Z.eqb_eq in E. exfalso. apply Hny. rewrite E. now apply in_map.
    + simpl. eapply perm_trans; [|apply perm_swap].
      apply perm_skip. now apply IH.
Qed.

Lemma sql_bind_number x : x <> NaN -> sql_bind x = SqlDouble x.
Proof. destruct x; simpl; congruence. Qed.

Lemma stored_fold_max_ge l m :
  m <= fold_left (fun m x => Z.max m (stored_id x)) l m.
Proof.
  revert m. induction l as [|x l IH]; intros m; simpl.
  - lia.
  - specialize (IH (Z.max m (stored_id x))). lia.
Qed.

Lemma stored_fold_max_bound l m b :
  m <= b -> (forall x, In x l -> stored_id x <= b) ->
  fold_left (fun m x => Z.max m (stored_id x)) l m <= b.
Proof.
  revert m. induction l as [|x l IH]; intros m Hm Hl; simpl.
  - exact Hm.
  - apply IH.
    + specialize (Hl x (or_introl eq_refl)). lia.
    + intros y Hy. apply Hl. now right.
Qed.

Lemma stored_fold_max_In l m x :
  In x l -> stored_id x <= fold_left (fun m x => Z.max m (stored_id x)) l m.
Proof.
  revert m. induction l as [|y l IH]; intros m Hx; simpl.
  - destruct Hx.
  - destruct Hx as [->|Hx].
    + pose proof (stored_fold_max_ge l (Z.max m (stored_id x))). lia.
    + now apply IH.
Qed.

Lemma stored_max_id_ge l m x : stored_max_id l = Some m -> In x l -> stored_id x <= m.
Proof.
  destruct l as [|e l]; [discriminate|]. simpl.
  intros [= <-] [->|Hx].
  - apply stored_fold_max_ge.
  - now apply stored_fold_max_In.
Qed.

Lemma stored_max_id_snoc l e :
  (forall x, In x l -> stored_id x < stored_id e) ->
  stored_max_id (l ++ [e]) = Some (stored_id e).
Proof.
  intros Hlt. destruct l as [|y l]; simpl; [reflexivity|].
  f_equal. apply Z.le_antisymm.
  - apply stored_fold_max_bound.
    + specialize (Hlt y (or_introl eq_refl)). lia.
    + intros x Hx. apply in_app_or in Hx. destruct Hx as [Hx|[<-|[]]].
      * specialize (Hlt x (or_intror Hx)). lia.
      * lia.
  - apply stored_fold_max_In. apply in_or_app. right. now left.
Qed.

(** What [add_entry_stored] does to the rows, for any two floats: the rows
    found stay as they are, and one row is appended, with a rowid above
    theirs and above the counter, holding the two floats as they are
    bound. *)
Lemma add_entry_stored_appends now uid uname inr usdt rows counter :
  exists rowid,
    add_entry_stored now uid uname inr usdt rows counter
    = (rowid,
       rows ++ [mk_stored rowid uid uname (sql_bind inr) (sql_bind usdt) now]) /\
    counter < rowid /\
    (forall x, In x rows -> stored_id x < rowid).
Proof.
  unfold add_entry_stored.
  set (rowid := match stored_max_id rows with
                | Some m => Z.max counter m + 1
                | None => counter + 1
                end).
  assert (Hcounter : counter < rowid).
  { subst rowid. destruct (stored_max_id rows); lia. }
  assert (Hfresh : forall x, In x rows -> stored_id x < rowid).
  { intros x Hx. subst rowid.
    destruct (stored_max_id rows) as [m|] eqn:E.
    - pose proof (stored_max_id_ge _ _ _ E Hx). lia.
    - destruct rows; [destruct Hx | discriminate]. }
  exists rowid. split; [|split; assumption]. f_equal.
  rewrite (stored_max_id_snoc rows (mk_stored rowid uid uname _ _ now)) by exact Hfresh.
  rewrite map_app. simpl. rewrite Z.eqb_refl. f_equal.
  rewrite <- (map_id rows) at 2. apply map_ext_in.
  intros x Hx. specialize (Hfresh x Hx).
  destruct (stored_id x =? rowid) eqn:E; [|reflexivity].
  apply Z.eqb_eq in E. lia.
Qed.

Lemma stored_max_id_of l : stored_max_id (map stored_of l) = max_id l.
Proof.
  destruct l as [|e l]; [reflexivity|]. simpl. f_equal.
  generalize (entry_id e). induction l as [|x l IH]; intros m; simpl.
  - reflexivity.
  - apply IH.
Qed.

(** [add_entry], where it is defined, is [add_entry_stored] on finite
    amounts. *)
Lemma add_entry_stored_agrees now uid uname inr usdt s rowid s' :
  add_entry now uid uname inr usdt s = Some (rowid, s') ->
  add_entry_stored now uid uname inr usdt (stored_rows s) (sqlite_sequence s)
  = (rowid, stored_rows s').
Proof.
  destruct inr as [a| |], usdt as [u| |];
    try (unfold add_entry; simpl; try discriminate;
         destruct (to_real _); discriminate).
  rewrite add_entry_finite. intros [= <- <-].
  destruct (add_entry_stored_appends now uid uname (Fin a) (Fin u)
              (stored_rows s) (sqlite_sequence s)) as (r & Hrun & _).
  assert (Hr : r = next_rowid s).
  { apply (f_equal fst) in Hrun. simpl in Hrun. rewrite <- Hrun.
    unfold next_rowid, stored_rows. now rewrite stored_max_id_of. }
  rewrite Hrun, Hr. unfold stored_rows. simpl. now rewrite map_app.
Qed.

(** C2, as stated, fails: a NaN passed as [amount_usdt] is stored as NULL,
    which is not the value passed. *)
Lemma add_entry_nan_stored_as_null :
  ~ (forall inr usdt row,
       In row (snd (add_entry_stored "2024-05-01T10:00:00+05:30" 0 "bob"
                                     inr usdt [] 0)) ->
       stored_usdt row = SqlDouble usdt) /\
  add_entry_stored "2024-05-01T10:00:00+05:30" 0 "bob" (Fin 5) NaN [] 0
  = (1, [mk_stored 1 0 "bob" (SqlDouble (Fin 5)) SqlNull
                   "2024-05-01T10:00:00+05:30"]).
Proof.
  split; [|reflexivity].
  intros H. specialize (H (Fin 5) NaN _ (or_introl eq_refl)). discriminate.
Qed.

(** C2, amended.  For any two floats and any table, [add_entry] leaves the
    rows it finds as they are and appends one row; whatever [amount_inr] is
    (zero and NaN included), a number passed as [amount_usdt], finite or
    infinite, is what that row holds in [amount_usdt], not the 0.0 that the
    [INSERT] may have written, and a NaN is stored as NULL.  For finite
    amounts, in the table of finite rows: [add_entry] succeeds and leaves
    the table as it was plus one row with exactly the amounts passed, the
    [UPDATE] having written into the row just inserted and into no other. *)
Theorem add_entry_stores_given_usdt now uid uname a u s :
  (forall inr usdt rows counter,
     exists rowid,
       add_entry_stored now uid uname inr usdt rows counter
       = (rowid,
          rows ++ [mk_stored rowid uid uname (sql_bind inr) (sql_bind usdt) now]) /\
       (usdt <> NaN -> sql_bind usdt = SqlDouble usdt) /\
       (usdt = NaN -> sql_bind usdt = SqlNull)) /\
  exists rowid s',
    add_entry now uid uname (Fin a) (Fin u) s = Some (rowid, s') /\
    entries s' = entries s ++ [mk_entry rowid uid uname a u now] /\
    (forall e, In e (entries s') -> entry_id e = rowid -> amount_usdt e = u) /\
    add_entry_stored now uid uname (Fin a) (Fin u)
                     (stored_rows s) (sqlite_sequence s)
    = (rowid, stored_rows s') /\
    meta_rate s' = meta_rate s.
Proof.
  split.
  { intros inr usdt rows counter.
    destruct (add_entry_stored_appends now uid uname inr usdt rows counter)
      as (rowid & Hrun & _).
    exists rowid. split; [exact Hrun|]. split.
    - apply sql_bind_number.
    - now intros ->. }
  exists (next_rowid s). eexists. split; [apply add_entry_finite|].
  simpl. split; [reflexivity|]. split; [|split; [|reflexivity]].
  - intros e He Hid. apply in_app_or in He. destruct He as [He|[<-|[]]].
    + apply next_rowid_fresh in He. lia.
    + reflexivity.
  - apply add_entry_stored_agrees. apply add_entry_finite.
Qed.

(** C8.  On a table with distinct ids: if it is empty,
    [delete_last_entry] returns [None] and changes nothing (so calling it
    again does the same); otherwise it returns the largest id, removes the
    row with that id and no other row, and no later [get_last_entries]
    shows that id. *)
Theorem delete_last_entry_removes_max s :
  NoDup (ids s) ->
  (entries s = [] ->
     delete_last_entry s = (None, s) /\
     delete_last_entry (snd (delete_last_entry s)) = (None, s)) /\
  (entries s <> [] ->
     exists e,
       In e (entries s) /\
       (forall x, In x (entries s) -> entry_id x <= entry_id e) /\
       fst (delete_last_entry s) = Some (entry_id e) /\
       Permutation (entries s) (e :: entries (snd (delete_last_entry s))) /\
       (forall limit,
          ~ In (entry_id e)
              (map entry_id (get_last_entries limit (snd (delete_last_entry s))))) /\
       meta_rate (snd (delete_last_entry s)) = meta_rate s).
Proof.
  intros Hnd. split.
  - intros Hnil. unfold delete_last_entry. rewrite Hnil. simpl.
    rewrite Hnil. simpl. split; reflexivity.
  - intros Hne. unfold delete_last_entry.
    destruct (sort_desc id_ge (entries s)) as [|e rest] eqn:Hsort.
    { apply sort_desc_nil in Hsort. contradiction. }
    assert (Hin : In e (entries s)).
    { apply (sort_desc_In id_ge). rewrite Hsort. now left. }
    exists e. simpl. repeat split.
    + exact Hin.
    + intros x Hx.
      destruct (sort_desc_head id_ge id_ge_total id_ge_trans _ _ _ Hsort x Hx)
        as [->|Hge]; [lia|].
      unfold id_ge in Hge. now apply Z.leb_le in Hge.
    + now apply delete_by_id_perm.
    + intros limit Hid. apply in_map_iff in Hid.
      destruct Hid as (x & Hx & Hxin).
      apply get_last_entries_In in Hxin. simpl in Hxin.
      apply filter_In in Hxin. destruct Hxin as [_ Hneq].
      rewrite Hx, Z.eqb_refl in Hneq. discriminate.
Qed.

(** C9.  After [reset_ledger] the table is empty, [get_last_entries]
    returns no row for any limit, and the stored rate, and so the rate that
    [get_rate] reads, is the one from before the call. *)
Theorem reset_ledger_clears_entries_only s :
  entries (reset_ledger s) = [] /\
  (forall limit, get_last_entries limit (reset_ledger s) = []) /\
  meta_rate (reset_ledger s) = meta_rate s /\
  fst (get_rate (reset_ledger s)) = fst (get_rate s).
Proof.
  repeat split.
  - intros limit. unfold get_last_entries, sql_limit. simpl.
    destruct (limit <? 0); [reflexivity|]. now rewrite firstn_nil.
  - unfold get_rate. simpl.
    destruct (meta_rate s) as [t|]; [|reflexivity].
    now destruct (float_of_text t).
Qed.

(** ** The totals block *)

Lemma Qlt_bool_iff a b : Qlt_bool a b = true <-> (a < b)%Q.
Proof.
  unfold Qlt_bool. rewrite negb_true_iff. split.
  - intros H. apply Qnot_le_lt. intros Hle.
    apply Qle_bool_iff in Hle. congruence.
  - intros H. destruct (Qle_bool b a) eqn:E; [|reflexivity].
    apply Qle_bool_iff in E. exfalso. exact (Qlt_not_le _ _ H E).
Qed.

Lemma Qlt_bool_false a b : Qlt_bool a b = false <-> (b <= a)%Q.
Proof.
  unfold Qlt_bool. rewrite negb_false_iff. apply Qle_bool_iff.
Qed.

Lemma fold_left_Qplus l a : (fold_left Qplus l a == a + Qsum l)%Q.
Proof.
  revert a. induction l as [|x l IH]; intros a; simpl.
  - lra.
  - rewrite IH. lra.
Qed.

Lemma or_zero_sql_sum l : (or_zero (sql_sum l) == Qsum l)%Q.
Proof.
  destruct l as [|x l]; [reflexivity|].
  unfold sql_sum, or_zero.
  destruct (Qeq_bool _ 0) eqn:E.
  - apply Qeq_bool_iff in E. rewrite fold_left_Qplus in E.
    rewrite <- E. lra.
  - rewrite fold_left_Qplus. lra.
Qed.

Lemma Qsum_when_positive (f : entry -> Q) l :
  (Qsum (map (fun e => when_positive (f e)) l)
   == Qsum (filter is_nonneg (map f l)))%Q.
Proof.
  induction l as [|e l IH]; simpl; [reflexivity|].
  unfold when_positive, is_nonneg at 1.
  destruct (Qlt_bool 0 (f e)) eqn:Hp, (Qle_bool 0 (f e)) eqn:Hn; simpl.
  - rewrite IH. reflexivity.
  - apply Qlt_bool_iff in Hp. apply Qlt_le_weak, Qle_bool_iff in Hp. congruence.
  - apply Qlt_bool_false in Hp. apply Qle_bool_iff in Hn. rewrite IH. lra.
  - rewrite IH. lra.
Qed.

Lemma Qsum_when_negative (f : entry -> Q) l :
  (Qsum (map (fun e => when_negative (f e)) l)
   == Qsum (filter is_negative (map f l)))%Q.
Proof.
  induction l as [|e l IH]; simpl; [reflexivity|].
  unfold when_negative, is_negative at 1.
  destruct (Qlt_bool (f e) 0) eqn:Hp; simpl; rewrite IH; lra.
Qed.

Lemma Qsum_negative_le_0 l : (Qsum (filter is_negative l) <= 0)%Q.
Proof.
  induction l as [|a l IH]; simpl; [lra|].
  destruct (is_negative a) eqn:E; [|exact IH].
  apply Qlt_bool_iff in E. simpl. lra.
Qed.

(** C5.  In the totals block, for each of the two amounts: gross is the
    sum of the non-negative amounts, refunded is minus the sum of the
    negative amounts and is not negative, and net is gross minus refunded as
    the very same expression.  With no entries all six totals are zero. *)
Theorem totals_block_sums s :
  let t := totals_block s in
  let inr := map amount_inr (entries s) in
  let usdt := map amount_usdt (entries s) in
  ((gross_inr t == Qsum (filter is_nonneg inr))%Q /\
   (refunded_inr t == - Qsum (filter is_negative inr))%Q /\
   (0 <= refunded_inr t)%Q /\
   net_inr t = (gross_inr t - refunded_inr t)%Q) /\
  ((gross_usdt t == Qsum (filter is_nonneg usdt))%Q /\
   (refunded_usdt t == - Qsum (filter is_negative usdt))%Q /\
   (0 <= refunded_usdt t)%Q /\
   net_usdt t = (gross_usdt t - refunded_usdt t)%Q) /\
  (entries s = [] -> t = mk_totals 0 0 0 0 0 0).
Proof.
  intros t inr usdt. subst t inr usdt. unfold totals_block; simpl.
  repeat split.
  - rewrite or_zero_sql_sum. apply Qsum_when_positive.
  - rewrite or_zero_sql_sum, Qsum_when_negative. reflexivity.
  - rewrite or_zero_sql_sum, Qsum_when_negative.
    pose proof (Qsum_negative_le_0 (map amount_inr (entries s))). lra.
  - rewrite or_zero_sql_sum. apply Qsum_when_positive.
  - rewrite or_zero_sql_sum, Qsum_when_negative. reflexivity.
  - rewrite or_zero_sql_sum, Qsum_when_negative.
    pose proof (Qsum_negative_le_0 (map amount_usdt (entries s))). lra.
  - intros ->. reflexivity.
Qed.

(** ** Per-user totals *)

Lemma Qsum_app l1 l2 : (Qsum (l1 ++ l2) == Qsum l1 + Qsum l2)%Q.
Proof.
  induction l1 as [|x l1 IH]; simpl; [lra|]. rewrite IH. lra.
Qed.

Lemma rows_of_snoc_same u l e :
  username e = u -> rows_of u (l ++ [e]) = rows_of u l ++ [e].
Proof.
  intros H. unfold rows_of. rewrite filter_app. simpl.
  apply String.eqb_eq in H. now rewrite H.
Qed.

Lemma rows_of_snoc_other u l e :
  username e <> u -> rows_of u (l ++ [e]) = rows_of u l.
Proof.
  intros H. unfold rows_of. rewrite filter_app. simpl.
  apply String.eqb_neq in H. rewrite H. apply app_nil_r.
Qed.

Lemma rows_of_absent u l : ~ In u (map username l) -> rows_of u l = [].
Proof.
  induction l as [|e l IH]; intros H; simpl; [reflexivity|].
  destruct (String.eqb (username e) u) eqn:E.
  - apply String.eqb_eq in E. exfalso. apply H. now left.
  - apply IH. intros Hin. apply H. now right.
Qed.

Lemma sums_of_snoc_other l e g :
  username e <> ut_name g -> sums_of l g -> sums_of (l ++ [e]) g.
Proof.
  intros Hne [H1 H2]. unfold sums_of.
  now rewrite (rows_of_snoc_other _ _ _ Hne).
Qed.

Lemma add_to_group_names_old e groups :
  In (username e) (map ut_name groups) ->
  map ut_name (add_to_group e groups) = map ut_name groups.
Proof.
  induction groups as [|g rest IH]; intros Hin; [destruct Hin|].
  simpl. destruct (String.eqb (ut_name g) (username e)) eqn:E.
  - reflexivity.
  - simpl. f_equal. apply IH. destruct Hin as [Hin|Hin]; [|exact Hin].
    apply String.eqb_neq in E. contradiction.
Qed.

Lemma add_to_group_names_new e groups :
  ~ In (username e) (map ut_name groups) ->
  map ut_name (add_to_group e groups) = map ut_name groups ++ [username e].
Proof.
  induction groups as [|g rest IH]; intros Hnin; [reflexivity|].
  simpl. destruct (String.eqb (ut_name g) (username e)) eqn:E.
  - apply String.eqb_eq in E. exfalso. apply Hnin. now left.
  - simpl. f_equal. apply IH. intros Hin. apply Hnin. now right.
Qed.

Lemma add_to_group_sums e l groups :
  NoDup (map ut_name groups) ->
  Forall (sums_of l) groups ->
  (~ In (username e) (map ut_name groups) -> rows_of (username e) l = []) ->
  Forall (sums_of (l ++ [e])) (add_to_group e groups).
Proof.
  induction groups as [|g rest IH]; intros Hnd Hall Hnew.
  - simpl. constructor; [|constructor].
    unfold sums_of, ut_name, ut_inr, ut_usdt. simpl.
    rewrite (rows_of_snoc_same _ _ _ eq_refl), Hnew by (intros []).
    simpl. split; lra.
  - simpl in Hnd. apply NoDup_cons_iff in Hnd. destruct Hnd as [Hg Hnd].
    apply Forall_cons_iff in Hall. destruct Hall as [[Hi Hu] Hall].
    simpl. destruct (String.eqb (ut_name g) (username e)) eqn:E.
    + apply String.eqb_eq in E. constructor.
      * unfold sums_of. change (ut_name (ut_name g, _, _)) with (ut_name g).
        unfold ut_inr at 1, ut_usdt at 1. simpl.
        rewrite (rows_of_snoc_same _ _ _ (eq_sym E)), !map_app, !Qsum_app.
        simpl. rewrite <- Hi, <- Hu. split; lra.
      * rewrite Forall_forall in Hall |- *. intros x Hx.
        apply sums_of_snoc_other; [|now apply Hall].
        intros Heq. apply Hg. rewrite E, Heq. now apply in_map.
    + apply String.eqb_neq in E. constructor.
      * apply sums_of_snoc_other; [congruence|now split].
      * apply IH; [exact Hnd | exact Hall |].
        intros Hnin. apply Hnew. intros [Heq|Hin]; [congruence|contradiction].
Qed.

Lemma group_by_username_snoc l e :
  group_by_username (l ++ [e]) = add_to_group e (group_by_username l).
Proof. unfold group_by_username. now rewrite fold_left_app. Qed.

(** The groups: one per username, each with the sums of its rows. *)
Lemma group_by_username_groups l :
  NoDup (map ut_name (group_by_username l)) /\
  (forall u, In u (map ut_name (group_by_username l)) <-> In u (map username l)) /\
  Forall (sums_of l) (group_by_username l).
Proof.
  induction l as [|e l (Hnd & Hnames & Hsums)] using rev_ind.
  - repeat split; simpl; try tauto; constructor.
  - rewrite group_by_username_snoc.
    destruct (in_dec string_dec (username e) (map ut_name (group_by_username l)))
      as [Hold|Hnew].
    + rewrite (add_to_group_names_old _ _ Hold). repeat split.
      * exact Hnd.
      * intros Hu. rewrite map_app. apply in_or_app. left. now apply Hnames.
      * rewrite map_app. intros Hu. apply in_app_or in Hu.
        destruct Hu as [Hu|[<-|[]]]; [now apply Hnames | exact Hold].
      * apply add_to_group_sums; [exact Hnd | exact Hsums | contradiction].
    + rewrite (add_to_group_names_new _ _ Hnew). repeat split.
      * apply NoDup_rev in Hnd. rewrite <- (rev_involutive (_ ++ _)).
        apply NoDup_rev. rewrite rev_app_distr. simpl.
        constructor; [|exact Hnd]. now rewrite <- in_rev.
      * rewrite map_app. intros Hu. apply in_or_app.
        apply in_app_or in Hu. destruct Hu as [Hu|Hu]; [left; now apply Hnames|now right].
      * rewrite map_app. intros Hu. apply in_or_app.
        apply in_app_or in Hu. destruct Hu as [Hu|Hu]; [left; now apply Hnames|now right].
      * apply add_to_group_sums; [exact Hnd | exact Hsums |].
        intros _. apply rows_of_absent. intros Hin. apply Hnew. now apply Hnames.
Qed.

Lemma split_last_user_others u l found acc :
  snd (split_last_user u l found acc) = acc ++ others u l.
Proof.
  revert found acc. induction l as [|r l IH]; intros found acc; simpl.
  - now rewrite app_nil_r.
  - destruct (String.eqb (ut_name r) u); simpl.
    + apply IH.
    + rewrite IH, <- app_assoc. reflexivity.
Qed.

Lemma split_last_user_absent u l found acc :
  ~ In u (map ut_name l) -> fst (split_last_user u l found acc) = found.
Proof.
  revert acc. induction l as [|r l IH]; intros acc Hnin; simpl; [reflexivity|].
  destruct (String.eqb (ut_name r) u) eqn:E.
  - apply String.eqb_eq in E. exfalso. apply Hnin. now left.
  - apply IH. intros Hin. apply Hnin. now right.
Qed.

Lemma split_last_user_found u l found acc :
  NoDup (map ut_name l) -> In u (map ut_name l) ->
  exists r, In r l /\ ut_name r = u /\
            fst (split_last_user u l found acc) = Some r.
Proof.
  revert found acc. induction l as [|r l IH]; intros found acc Hnd Hin; [destruct Hin|].
  simpl in Hnd. apply NoDup_cons_iff in Hnd. destruct Hnd as [Hr Hnd].
  simpl. destruct (String.eqb (ut_name r) u) eqn:E.
  - apply String.eqb_eq in E. exists r. repeat split; [now left | exact E |].
    apply split_last_user_absent. now rewrite <- E.
  - apply String.eqb_neq in E. destruct Hin as [Hin|Hin]; [contradiction|].
    destruct (IH found (acc ++ [r]) Hnd Hin) as (x & Hx & Hname & Hfst).
    exists x. repeat split; [now right | exact Hname | exact Hfst].
Qed.

(** The reordering, when the latest row has a non-empty username that is
    among the groups. *)
Lemma reorder_per_user_front e recent per_user :
  username e <> ""%string ->
  NoDup (map ut_name per_user) ->
  In (username e) (map ut_name per_user) ->
  exists r, In r per_user /\ ut_name r = username e /\
            reorder_per_user (e :: recent) per_user = r :: others (username e) per_user.
Proof.
  intros Hne Hnd Hin. unfold reorder_per_user.
  apply String.eqb_neq in Hne. rewrite Hne.
  destruct (split_last_user_found (username e) per_user None [] Hnd Hin)
    as (r & Hr & Hname & Hfst).
  exists r. repeat split; [exact Hr | exact Hname |].
  pose proof (split_last_user_others (username e) per_user None []) as Hsnd.
  destruct (split_last_user (username e) per_user None []) as [found reordered].
  simpl in Hfst, Hsnd. now subst.
Qed.

Lemma NoDup_map_inj {A B : Type} (f : A -> B) l x y :
  NoDup (map f l) -> In x l -> In y l -> f x = f y -> x = y.
Proof.
  induction l as [|a l IH]; intros Hnd Hx Hy Heq; [destruct Hx|].
  simpl in Hnd. apply NoDup_cons_iff in Hnd. destruct Hnd as [Ha Hnd].
  destruct Hx as [->|Hx], Hy as [->|Hy].
  - reflexivity.
  - exfalso. apply Ha. rewrite Heq. now apply in_map.
  - exfalso. apply Ha. rewrite <- Heq. now apply in_map.
  - now apply IH.
Qed.

(** With distinct ids, the first row of [get_last_entries] is the row with
    the largest id. *)
Lemma get_last_entries_head limit s last :
  limit <> 0 -> NoDup (ids s) ->
  In last (entries s) ->
  (forall x, In x (entries s) -> entry_id x <= entry_id last) ->
  exists rest, get_last_entries limit s = last :: rest.
Proof.
  intros Hlim Hnd Hin Hmax. unfold get_last_entries.
  destruct (sort_desc id_ge (entries s)) as [|e rest] eqn:Hsort.
  { apply sort_desc_nil in Hsort. rewrite Hsort in Hin. destruct Hin. }
  assert (He : In e (entries s)).
  { apply (sort_desc_In id_ge). rewrite Hsort. now left. }
  assert (e = last) as ->.
  { apply (NoDup_map_inj entry_id (entries s)); trivial.
    specialize (Hmax e He).
    destruct (sort_desc_head id_ge id_ge_total id_ge_trans _ _ _ Hsort last Hin)
      as [->|Hge]; [reflexivity|].
    unfold id_ge in Hge. apply Z.leb_le in Hge. lia. }
  unfold sql_limit. destruct (limit <? 0) eqn:E; [now exists rest|].
  apply Z.ltb_ge in E.
  destruct (Z.to_nat limit) as [|k] eqn:Hk; [lia|].
  simpl. now eexists.
Qed.

Lemma per_user_query_sorted s : StronglySorted s_inr_geP (per_user_query s).
Proof.
  pose proof (sort_desc_sorted s_inr_ge s_inr_ge_total s_inr_ge_trans
                (group_by_username (entries s))) as H.
  unfold per_user_query.
  induction H as [|x l Hs IH Hall]; constructor; [exact IH|].
  eapply Forall_impl; [|exact Hall].
  intros y Hy. unfold s_inr_ge in Hy. now apply Qle_bool_iff in Hy.
Qed.

Lemma per_user_query_groups s :
  NoDup (map ut_name (per_user_query s)) /\
  (forall u, In u (map ut_name (per_user_query s)) <-> In u (map username (entries s))) /\
  Forall (sums_of (entries s)) (per_user_query s).
Proof.
  destruct (group_by_username_groups (entries s)) as (Hnd & Hnames & Hsums).
  pose proof (sort_desc_perm s_inr_ge (group_by_username (entries s))) as Hperm.
  unfold per_user_query. repeat split.
  - eapply Permutation_NoDup; [|exact Hnd]. now apply Permutation_map.
  - intros Hu. apply Hnames.
    eapply Permutation_in; [|exact Hu]. apply Permutation_sym. now apply Permutation_map.
  - intros Hu. apply Hnames in Hu.
    eapply Permutation_in; [|exact Hu]. now apply Permutation_map.
  - eapply Permutation_Forall; eassumption.
Qed.

(** C4, as stated, fails.  After [+1,000] for Alice and [+50] for a
    deleted account, whose name is empty, the latest row has the username
    [''], the query has a row for it, and that row is written last, not
    first: the test [if last_user:] fails on the empty string. *)
Lemma empty_username_row_not_moved :
  run ghost_events fresh_db = Some ghost_db /\
  map username (get_last_entries 10 ghost_db) = [""; "alice"]%string /\
  map ut_name (per_user_query ghost_db) = ["alice"; ""]%string /\
  map ut_name (per_user_rows 10 ghost_db) = ["alice"; ""]%string /\
  ~ (exists r,
       ut_name r = ""%string /\
       per_user_rows 10 ghost_db = r :: others "" (per_user_query ghost_db)).
Proof.
  repeat split.
  intros (r & Hname & Hrows).
  apply (f_equal (map ut_name)) in Hrows. simpl in Hrows.
  rewrite Hname in Hrows. discriminate.
Qed.

(** C4, amended.  The rows of the per-user section, for a table with
    distinct ids and a report on at least one recent row.  There is one
    group per username, whatever the user ids; a group's totals are the sums
    of the two amounts over the rows of its username; the query gives the
    groups by [s_inr], largest first.  With no entries the section has no
    row.  Otherwise, when the username of the row with the largest id is not
    empty, the group of that username is written first, whatever its total,
    and the other groups follow in the order of the query; when that
    username is empty, all groups are written in the order of the query. *)
Theorem per_user_section_order latest_n s :
  latest_n <> 0 ->
  NoDup (ids s) ->
  let sorted := per_user_query s in
  let rows := per_user_rows latest_n s in
  let written := map (fun r => LUserTotal (ut_name r) (ut_inr r) (ut_usdt r)) rows in
  (NoDup (map ut_name sorted) /\
   (forall u, In u (map ut_name sorted) <-> In u (map username (entries s))) /\
   Forall (sums_of (entries s)) sorted /\
   StronglySorted s_inr_geP sorted) /\
  (entries s = [] -> rows = []) /\
  (forall last,
     In last (entries s) ->
     (forall x, In x (entries s) -> entry_id x <= entry_id last) ->
     per_user_lines latest_n s = written /\
     (username last <> ""%string ->
      exists r,
        In r sorted /\ ut_name r = username last /\
        rows = r :: others (username last) sorted) /\
     (username last = ""%string -> rows = sorted)).
Proof.
  intros Hlim Hnd sorted rows written. subst sorted rows written.
  destruct (per_user_query_groups s) as (Hnames_nd & Hnames & Hsums).
  split; [|split].
  - repeat split; trivial; try apply Hnames. apply per_user_query_sorted.
  - intros Hnil. unfold per_user_rows, per_user_query. now rewrite Hnil.
  - intros last Hin Hmax.
    destruct (get_last_entries_head latest_n s last Hlim Hnd Hin Hmax) as [rest Hrecent].
    assert (Hgroup : In (username last) (map ut_name (per_user_query s))).
    { apply Hnames. now apply in_map. }
    unfold per_user_lines, per_user_rows. rewrite Hrecent.
    destruct (per_user_query s) as [|g per_user] eqn:Hq; [destruct Hgroup|].
    split; [reflexivity|]. split.
    + intros Hname.
      destruct (reorder_per_user_front last rest (g :: per_user)
                  Hname Hnames_nd Hgroup) as (r & Hr & Hrname & Hreorder).
      exists r. now repeat split.
    + intros Hname. unfold reorder_per_user. now rewrite Hname.
Qed.

(** The first row of the recent list skips the reordering when its username
    is empty: the test [if last_user:] fails on [''], and the rows stay in
    the order of the query. *)
Remark reorder_skips_empty_username e recent per_user :
  username e = ""%string -> reorder_per_user (e :: recent) per_user = per_user.
Proof. intros H. unfold reorder_per_user. now rewrite H. Qed.

(** ** Recording an adjustment *)

Lemma get_rate_entries s : entries (snd (get_rate s)) = entries s.
Proof.
  unfold get_rate. destruct (meta_rate s) as [t|]; [|reflexivity].
  now destruct (float_of_text t).
Qed.

Lemma build_report_db n s : snd (build_report n s) = snd (get_rate s).
Proof. unfold build_report. now destruct (get_rate s). Qed.

Lemma build_report_entries n s : entries (snd (build_report n s)) = entries s.
Proof. rewrite build_report_db. apply get_rate_entries. Qed.

Lemma to_usdt_finite val r :
  to_usdt (Fin val) (Fin r) = Fin (if Qeq_bool r 0 then 0 else val / r)%Q.
Proof.
  unfold to_usdt, float_ne0, truthy, float_div.
  now destruct (Qeq_bool r 0).
Qed.

Lemma Qdiv_same_sign a r : (0 < r)%Q -> same_sign a (a / r).
Proof.
  intros Hr. unfold same_sign, Qdiv.
  assert (Hinv : (0 <= / r)%Q) by (apply Qinv_le_0_compat; lra).
  destruct (Qlt_le_dec a 0) as [Ha|Ha].
  - right. split; [lra|].
    assert (H : (0 <= (- a) * / r)%Q) by (apply Qmult_le_0_compat; lra).
    lra.
  - left. split; [exact Ha|]. now apply Qmult_le_0_compat.
Qed.

Lemma to_usdt_same_sign val r :
  (0 <= r)%Q -> same_sign val (if Qeq_bool r 0 then 0 else val / r)%Q.
Proof.
  intros Hr. destruct (Qeq_bool r 0) eqn:E.
  - unfold same_sign. destruct (Qlt_le_dec val 0); [right|left]; lra.
  - apply Qdiv_same_sign. apply Qeq_bool_neq in E. lra.
Qed.

Lemma no_match_on_empty_text : SINGLE_SIGN_NUMBER_RE_match (py_strip "") = None.
Proof. reflexivity. Qed.

(** What [message_handler] stores for a token that parses to [val] with
    [abs(val) >= 0.00001], at the finite rate [r]. *)
Lemma message_handler_appends u s target token val r :
  reply_to u = Some target ->
  sender_is_admin u = true ->
  SINGLE_SIGN_NUMBER_RE_match (py_strip (msg_text u)) = Some token ->
  parse_signed_token token = Some (Fin val) ->
  (1 # 100000 <= Qabs val)%Q ->
  fst (get_rate s) = Fin r ->
  exists s' e,
    message_handler u s = Some s' /\
    entries s' = entries s ++ [e] /\
    user_id e = tg_id target /\
    username e = target_name target /\
    amount_inr e = val /\
    amount_usdt e = (if Qeq_bool r 0 then 0 else val / r)%Q /\
    ((0 <= r)%Q -> same_sign (amount_inr e) (amount_usdt e)).
Proof.
  intros Hreply Hadmin Hmatch Hparse Hmag Hrate.
  unfold message_handler.
  destruct (String.eqb (msg_text u) "") eqn:Htext.
  { apply String.eqb_eq in Htext. rewrite Htext, no_match_on_empty_text in Hmatch.
    discriminate. }
  rewrite Hreply, Hmatch, Hadmin, Hparse. simpl negb. cbv iota.
  assert (Hbig : float_lt (float_abs (Fin val)) MIN_MAGNITUDE = false).
  { unfold float_lt, float_abs, MIN_MAGNITUDE. now apply Qlt_bool_false. }
  rewrite Hbig.
  pose proof (get_rate_entries s) as Hentries.
  destruct (get_rate s) as [rate s1]. simpl in Hrate, Hentries. subst rate.
  rewrite to_usdt_finite, add_entry_finite.
  eexists. eexists. split; [reflexivity|].
  rewrite build_report_entries. simpl. rewrite Hentries.
  split; [reflexivity|]. simpl. repeat split.
  apply to_usdt_same_sign.
Qed.

(** ** The rate *)

(** C6, as stated, fails: [set_rate] checks nothing.  Called with [-1] it
    replaces the stored rate, and [get_rate] then reads [-1]. *)
Lemma set_rate_accepts_negative :
  ~ (forall v s,
       float_le v (Fin 0) = true -> meta_rate (set_rate v s) = meta_rate s) /\
  fst (get_rate (set_rate (Fin (-1)) fresh_db)) = Fin (-1).
Proof.
  split; [|reflexivity].
  intros H. specialize (H (Fin (-1)) fresh_db eq_refl). discriminate.
Qed.

(** C6, amended.  The check is in [rate_cmd]: with an argument that is not
    a number, or is a number [v <= 0], the command leaves the database as it
    is; sent by an administrator with a number [v > 0], it replaces the
    stored rate, which [get_rate] then reads as [v]. *)
Theorem rate_cmd_checks_rate u s a rest :
  args u = a :: rest ->
  (float_of_string a = None -> rate_cmd u s = s) /\
  (forall v, float_of_string a = Some v -> float_le v (Fin 0) = true ->
             rate_cmd u s = s) /\
  (forall v, float_of_string a = Some v -> float_lt (Fin 0) v = true ->
             sender_is_admin u = true ->
             rate_cmd u s = set_rate v s /\ fst (get_rate (rate_cmd u s)) = v).
Proof.
  intros Hargs. unfold rate_cmd. rewrite Hargs.
  split; [|split].
  - intros ->. now destruct (negb (sender_is_admin u)).
  - intros v -> ->. now destruct (negb (sender_is_admin u)).
  - intros v Hv Hpos Hadmin. rewrite Hadmin, Hv. simpl negb. cbv iota.
    assert (Hle : float_le v (Fin 0) = false).
    { destruct v as [q|[|]|]; simpl in *; try discriminate; try reflexivity.
      apply Qlt_bool_iff in Hpos.
      destruct (Qle_bool q 0) eqn:E; [|reflexivity].
      apply Qle_bool_iff in E. lra. }
    rewrite Hle. split; reflexivity.
Qed.

(** [nan <= 0] is false: the guard of [rate_cmd] lets [/rate nan] through,
    and the stored rate is then NaN. *)
Remark rate_cmd_stores_nan :
  fst (get_rate (rate_cmd (from_admin "/rate nan" None ["nan"%string]) fresh_db)) = NaN.
Proof. reflexivity. Qed.

(** A stored rate that is not a number: [get_rate] returns the default
    and writes nothing. *)
Lemma get_rate_malformed s t :
  meta_rate s = Some t -> float_of_text t = None ->
  get_rate s = (DEFAULT_RATE, s).
Proof. intros Ht Hbad. unfold get_rate. now rewrite Ht, Hbad. Qed.

(** No stored rate: [get_rate] returns the default and stores it. *)
Lemma get_rate_absent s :
  meta_rate s = None ->
  get_rate s = (DEFAULT_RATE, set_rate DEFAULT_RATE s) /\
  meta_rate (snd (get_rate s)) = Some (ReprOf DEFAULT_RATE).
Proof. intros Ht. unfold get_rate. now rewrite Ht. Qed.

(** C7 fails on the code.  With the stored rate [abc], [get_rate] returns
    the default 93.5 and leaves the database as it is: the stored value is
    still [abc], still not a number, and is not the default.  The write that
    the claim describes happens only when the row is absent. *)
Theorem get_rate_malformed_not_persisted :
  get_rate db_with_rate_abc = (DEFAULT_RATE, db_with_rate_abc) /\
  meta_rate (snd (get_rate db_with_rate_abc)) = Some (Str "abc") /\
  float_of_text (Str "abc") = None /\
  meta_rate (snd (get_rate no_tables)) = Some (ReprOf DEFAULT_RATE).
Proof. repeat split. Qed.

(** ** Small and malformed amounts *)

(** On the reply path: a text outside the number format, a token that does
    not parse, and a magnitude below 0.00001 leave the database as it is. *)
Lemma message_handler_rejects u s :
  (SINGLE_SIGN_NUMBER_RE_match (py_strip (msg_text u)) = None ->
   message_handler u s = Some s) /\
  (forall token,
     SINGLE_SIGN_NUMBER_RE_match (py_strip (msg_text u)) = Some token ->
     parse_signed_token token = None -> message_handler u s = Some s) /\
  (forall token val,
     SINGLE_SIGN_NUMBER_RE_match (py_strip (msg_text u)) = Some token ->
     parse_signed_token token = Some val ->
     float_lt (float_abs val) MIN_MAGNITUDE = true -> message_handler u s = Some s).
Proof.
  unfold message_handler. split; [|split].
  - intros ->. destruct (String.eqb _ _), (reply_to u); reflexivity.
  - intros token -> ->.
    destruct (String.eqb _ _), (reply_to u), (sender_is_admin u); reflexivity.
  - intros token val -> -> ->.
    destruct (String.eqb _ _), (reply_to u), (sender_is_admin u); reflexivity.
Qed.

(** On the [/add] paths an amount that [float] rejects leaves the database
    as it is. *)
Lemma add_cmd_store_rejects_malformed now uid name amount s :
  float_of_string (remove_commas amount) = None ->
  add_cmd_store now uid name amount s = Some s.
Proof. intros H. unfold add_cmd_store. now rewrite H. Qed.

(** C3 fails on the code.  [add_cmd] has no magnitude test: [/add bob 0]
    on a new database stores one row, with [amount_inr = 0]. *)
Theorem add_cmd_stores_zero_amount :
  exists e s',
    add_cmd add_bob_zero fresh_db = Some s' /\
    entries s' = [e] /\
    username e = "bob"%string /\
    amount_inr e = 0%Q /\
    (Qabs (amount_inr e) < 1 # 100000)%Q.
Proof.
  eexists. eexists. split; [reflexivity|].
  simpl. repeat split.
Qed.

(** ** The sign invariant *)

Lemma get_rate_idem s : fst (get_rate (snd (get_rate s))) = fst (get_rate s).
Proof.
  unfold get_rate. destruct (meta_rate s) as [t|] eqn:Ht; simpl.
  - destruct (float_of_text t) eqn:Hf; simpl; now rewrite Ht, Hf.
  - reflexivity.
Qed.

Lemma get_rate_fst_meta s1 s2 :
  meta_rate s1 = meta_rate s2 -> fst (get_rate s1) = fst (get_rate s2).
Proof.
  intros H. unfold get_rate. rewrite H.
  destruct (meta_rate s2) as [t|]; [|reflexivity].
  now destruct (float_of_text t).
Qed.

Lemma get_rate_inv s : ledger_inv s -> ledger_inv (snd (get_rate s)).
Proof.
  intros [Hall Hrate]. split.
  - now rewrite get_rate_entries.
  - unfold rate_not_le_0. now rewrite get_rate_idem.
Qed.

Lemma build_report_inv n s : ledger_inv s -> ledger_inv (snd (build_report n s)).
Proof. rewrite build_report_db. apply get_rate_inv. Qed.

Lemma old_or_appended_same s s' : entries s' = entries s -> old_or_appended s s'.
Proof. intros H e He. left. now rewrite <- H. Qed.

(** A conversion at a rate that is not [<= 0], stored by [add_entry]. *)
Lemma add_entry_converted now uid name val s rowid s' :
  ledger_inv s ->
  add_entry now uid name val (to_usdt val (fst (get_rate s))) (snd (get_rate s))
  = Some (rowid, s') ->
  ledger_inv s' /\ old_or_appended s s'.
Proof.
  intros Hinv Hadd. pose proof (get_rate_inv s Hinv) as [Hall Hrate].
  destruct Hinv as [_ Hpos]. unfold rate_not_le_0 in Hpos.
  rewrite get_rate_entries in Hall.
  assert (Hshape : exists a u, val = Fin a /\
            to_usdt val (fst (get_rate s)) = Fin u /\ same_sign a u).
  { unfold add_entry in Hadd.
    destruct val as [a| |]; simpl in Hadd; try discriminate.
    destruct (fst (get_rate s)) as [r|[|]|]; simpl in Hpos; try discriminate.
    - exists a. eexists. split; [reflexivity|]. split; [apply to_usdt_finite|].
      apply to_usdt_same_sign.
      destruct (Qle_bool r 0) eqn:E; [discriminate|].
      apply Qlt_le_weak, Qlt_bool_iff. unfold Qlt_bool. now rewrite E.
    - exists a, 0%Q. repeat split. unfold same_sign.
      destruct (Qlt_le_dec a 0); [right|left]; lra.
    - exfalso. unfold to_usdt in Hadd. simpl in Hadd.
      destruct (to_real _); discriminate. }
  destruct Hshape as (a & u & -> & Husdt & Hsign).
  rewrite Husdt, add_entry_finite in Hadd. injection Hadd as _ <-.
  split; [split|].
  - simpl. rewrite get_rate_entries. apply Forall_app. split; [exact Hall|].
    constructor; [exact Hsign|constructor].
  - unfold rate_not_le_0 in *.
    now rewrite (get_rate_fst_meta _ (snd (get_rate s))).
  - intros e. simpl. rewrite get_rate_entries. intros He.
    apply in_app_or in He. destruct He as [He|[<-|[]]]; [now left|now right].
Qed.

Lemma add_cmd_store_inv now uid name amount s s' :
  ledger_inv s -> add_cmd_store now uid name amount s = Some s' ->
  ledger_inv s' /\ old_or_appended s s'.
Proof.
  intros Hinv. unfold add_cmd_store.
  destruct (float_of_string (remove_commas amount)) as [val|].
  - rewrite (surjective_pairing (get_rate s)).
    destruct (add_entry _ _ _ _ _ _) as [[rowid s2]|] eqn:Hadd; [|discriminate].
    simpl. intros [= <-]. eapply add_entry_converted; eassumption.
  - intros [= <-]. split; [exact Hinv | now apply old_or_appended_same].
Qed.

Lemma handle_inv ev s s' :
  ledger_inv s -> handle ev s = Some s' -> ledger_inv s' /\ old_or_appended s s'.
Proof.
  intros Hinv.
  assert (Hkeep : ledger_inv s /\ old_or_appended s s).
  { split; [exact Hinv | now apply old_or_appended_same]. }
  assert (Hsame : Some s = Some s' -> ledger_inv s' /\ old_or_appended s s').
  { now intros [= <-]. }
  destruct ev as [u|u|u|u|u|data u|u]; simpl.
  - (* message_handler *)
    unfold message_handler.
    destruct (String.eqb (msg_text u) ""); [exact Hsame|].
    destruct (reply_to u) as [target|]; [|exact Hsame].
    destruct (SINGLE_SIGN_NUMBER_RE_match _) as [token|]; [|exact Hsame].
    destruct (negb (sender_is_admin u)); [exact Hsame|].
    destruct (parse_signed_token token) as [val|]; [|exact Hsame].
    destruct (float_lt _ _); [exact Hsame|].
    rewrite (surjective_pairing (get_rate s)).
    destruct (add_entry _ _ _ _ _ _) as [[rowid s2]|] eqn:Hadd; [|discriminate].
    intros [= <-].
    destruct (add_entry_converted _ _ _ _ _ _ _ Hinv Hadd) as [Hinv2 Hrows].
    split; [now apply build_report_inv|].
    intros e. rewrite build_report_entries. apply Hrows.
  - (* rate_cmd *)
    clear Hsame. intros [= <-]. unfold rate_cmd.
    destruct (negb (sender_is_admin u)); [exact Hkeep|].
    destruct (args u) as [|a rest].
    + split; [now apply get_rate_inv|].
      apply old_or_appended_same, get_rate_entries.
    + destruct (float_of_string a) as [r|]; [|exact Hkeep].
      destruct (float_le r (Fin 0)) eqn:Hr; [exact Hkeep|].
      split; [|now apply old_or_appended_same].
      split; [apply Hinv|]. unfold rate_not_le_0. exact Hr.
  - (* summary_cmd *)
    intros [= <-]. split; [now apply build_report_inv|].
    apply old_or_appended_same, build_report_entries.
  - (* add_cmd *)
    unfold add_cmd.
    destruct (negb (sender_is_admin u)); [exact Hsame|].
    destruct (reply_to u) as [target|], (args u) as [|a [|b [|c rest]]];
      try exact Hsame; now apply add_cmd_store_inv.
  - (* undo_cmd *)
    clear Hsame. intros [= <-]. unfold undo_cmd.
    destruct (negb (sender_is_admin u)); [exact Hkeep|].
    unfold delete_last_entry.
    destruct (sort_desc id_ge (entries s)) as [|row rest]; [exact Hkeep|].
    destruct Hinv as [Hall Hrate]. split; [split|].
    + simpl. rewrite Forall_forall in Hall |- *.
      intros e He. apply filter_In in He. now apply Hall.
    + unfold rate_not_le_0 in *. now rewrite (get_rate_fst_meta _ s).
    + intros e He. simpl in He. apply filter_In in He. now left.
  - (* reset_callback *)
    clear Hsame. intros [= <-]. unfold reset_callback.
    destruct (String.eqb data "reset_cancel"); [exact Hkeep|].
    destruct (negb (sender_is_admin u)); [exact Hkeep|].
    split.
    + apply build_report_inv. split; [constructor|].
      destruct Hinv as [_ Hrate]. unfold rate_not_le_0 in *.
      now rewrite (get_rate_fst_meta _ s).
    + intros e. rewrite build_report_entries. intros [].
  - exact Hsame.
Qed.

(** As long as every amount stored is finite.  In every database that
    the handlers reach from a new file through such steps, each row has its
    two amounts on the same side of zero; and a handler leaves the rows it
    finds as they are: every row after it is a row from before, or the
    single row it appended. *)
Lemma same_sign_invariant s :
  reachable s ->
  Forall entry_same_sign (entries s) /\
  (forall ev s', handle ev s = Some s' -> old_or_appended s s').
Proof.
  intros Hreach.
  assert (Hinv : ledger_inv s).
  { induction Hreach as [|s ev s' _ IH Hstep].
    - split; [constructor | reflexivity].
    - now apply (handle_inv ev s s'). }
  split; [apply Hinv|].
  intros ev s' Hstep. now apply (handle_inv ev s s').
Qed.

(** ** Tokens of the number format

    Every text that [SINGLE_SIGN_NUMBER_RE] matches is parsed by
    [parse_signed_token] to a finite value: the [except] around the call in
    [message_handler] is never taken. *)

Lemma nullable_lang r : nullable r = true -> lang r [].
Proof.
  induction r as [| |p|r1 IH1 r2 IH2|r1 IH1 r2 IH2|r IH]; simpl; intros H;
    try discriminate.
  - constructor.
  - apply andb_true_iff in H. destruct H as [H1 H2].
    apply (lang_cat r1 r2 [] []); auto.
  - apply orb_true_iff in H. destruct H as [H|H];
      [apply lang_alt_l | apply lang_alt_r]; auto.
  - constructor.
Qed.

Lemma deriv_lang c r l : lang (deriv c r) l -> lang r (c :: l).
Proof.
  revert l.
  induction r as [| |p|r1 IH1 r2 IH2|r1 IH1 r2 IH2|r IH]; simpl; intros l H.
  - inversion H.
  - inversion H.
  - destruct (p c) eqn:E; inversion H; subst. now constructor.
  - assert (Hcat : forall l, lang (Cat (deriv c r1) r2) l -> lang (Cat r1 r2) (c :: l)).
    { intros l0 H0. inversion H0 as [| |x1 x2 l1 l2 Hl1 Hl2| | | |]; subst.
      apply (lang_cat r1 r2 (c :: l1) l2); auto. }
    destruct (nullable r1) eqn:N; [|now apply Hcat].
    inversion H as [| | |x1 x2 l0 Hl|x1 x2 l0 Hl| |]; subst; [now apply Hcat|].
    apply (lang_cat r1 r2 [] (c :: l)); [now apply nullable_lang | now apply IH2].
  - inversion H; subst; [apply lang_alt_l | apply lang_alt_r]; auto.
  - inversion H as [| |x1 x2 l1 l2 Hl1 Hl2| | | |]; subst.
    apply (lang_star_cons r (c :: l1) l2); auto.
Qed.

Lemma fullmatch_lang r l : fullmatch r l = true -> lang r l.
Proof.
  revert r. induction l as [|c l IH]; simpl; intros r H.
  - now apply nullable_lang.
  - now apply deriv_lang, IH.
Qed.

Lemma is_digit_cases c :
  is_digit c = true ->
  In c ["0"; "1"; "2"; "3"; "4"; "5"; "6"; "7"; "8"; "9"]%char.
Proof.
  destruct c as [[] [] [] [] [] [] [] []]; intros H;
    try discriminate H; simpl; tauto.
Qed.

(** What is used of a digit: it is no comma, no space, no underscore, no
    letter. *)
Lemma digit_facts c :
  is_digit c = true ->
  not_comma c = true /\ is_space c = false /\ lower c = c /\
  Ascii.eqb "i" c = false /\ Ascii.eqb "n" c = false.
Proof.
  intros H. apply is_digit_cases in H. simpl in H.
  repeat destruct H as [<-|H]; try destruct H; repeat split.
Qed.

Lemma is_sign_facts c :
  is_sign c = true ->
  not_comma c = true /\ is_space c = false /\
  read_sign (c :: nil) = (Ascii.eqb c "-"%char, nil).
Proof.
  unfold is_sign. intros H. apply orb_true_iff in H.
  destruct H as [H|H]; apply Ascii.eqb_eq in H; subst; repeat split.
Qed.

Lemma lang_chr_inv p l : lang (Chr p) l -> exists c, l = [c] /\ p c = true.
Proof. intros H. inversion H; subst. eauto. Qed.

Lemma lang_cat_inv r1 r2 l :
  lang (Cat r1 r2) l -> exists l1 l2, l = l1 ++ l2 /\ lang r1 l1 /\ lang r2 l2.
Proof. intros H. inversion H; subst. eauto. Qed.

Lemma lang_alt_inv r1 r2 l : lang (Alt r1 r2) l -> lang r1 l \/ lang r2 l.
Proof. intros H. inversion H; subst; auto. Qed.

Lemma lang_opt_inv r l : lang (opt r) l -> lang r l \/ l = [].
Proof.
  intros H. apply lang_alt_inv in H. destruct H as [H|H]; [now left|].
  inversion H. now right.
Qed.

Lemma lang_star_ind_on (P : chars -> Prop) r l :
  P [] -> (forall l1 l2, lang r l1 -> P l2 -> P (l1 ++ l2)) ->
  lang (Star r) l -> P l.
Proof.
  intros Hnil Hcons H. remember (Star r) as sr eqn:E.
  induction H as [| | | | |r0|r0 l1 l2 H1 _ H2 IH2]; try discriminate.
  - exact Hnil.
  - injection E as ->. apply Hcons; auto.
Qed.

Lemma lang_digit l : lang digit_re l -> all_digits l /\ l <> [] /\ filter not_comma l = l.
Proof.
  intros H. apply lang_chr_inv in H. destruct H as (c & -> & Hc).
  destruct (digit_facts c Hc) as (Hnc & _).
  repeat split; [now repeat constructor | discriminate | simpl; now rewrite Hnc].
Qed.

Lemma all_digits_filter l : all_digits l -> filter not_comma l = l.
Proof.
  induction 1 as [|c l Hc _ IH]; simpl; [reflexivity|].
  destruct (digit_facts c Hc) as (-> & _). now rewrite IH.
Qed.

Lemma lang_digits l : lang (plus digit_re) l -> all_digits l /\ l <> [].
Proof.
  intros H. apply lang_cat_inv in H. destruct H as (l1 & l2 & -> & H1 & H2).
  apply lang_digit in H1. destruct H1 as (Hd & Hne & _). split.
  - apply Forall_app. split; [exact Hd|].
    apply (lang_star_ind_on all_digits digit_re); [constructor| |exact H2].
    intros x y Hx Hy. apply Forall_app. split; [now apply lang_digit|exact Hy].
  - destruct l1; [contradiction|discriminate].
Qed.

Lemma lang_fraction l : lang fraction_re l -> fraction l /\ filter not_comma l = l.
Proof.
  intros H. apply lang_opt_inv in H. destruct H as [H| ->]; [|split; [now left|reflexivity]].
  apply lang_cat_inv in H. destruct H as (l1 & l2 & -> & H1 & H2).
  apply lang_chr_inv in H1. destruct H1 as (c & -> & Hc).
  apply Ascii.eqb_eq in Hc. subst c.
  apply lang_digits in H2. destruct H2 as [Hd Hne]. split.
  - right. now exists l2.
  - simpl. now rewrite all_digits_filter.
Qed.

Lemma lang_opt_digit l : lang (opt digit_re) l -> all_digits (filter not_comma l).
Proof.
  intros H. apply lang_opt_inv in H. destruct H as [H| ->]; [|constructor].
  apply lang_digit in H. destruct H as (Hd & _ & ->). exact Hd.
Qed.

Lemma lang_comma_groups l :
  lang (Star (Cat (lit ","%char) (Cat digit_re (Cat digit_re digit_re)))) l ->
  all_digits (filter not_comma l).
Proof.
  intros H.
  apply (lang_star_ind_on (fun l => all_digits (filter not_comma l))
           (Cat (lit ","%char) (Cat digit_re (Cat digit_re digit_re))) l);
    [constructor| |exact H].
  clear l H. intros l1 l2 H1 H2. rewrite filter_app. apply Forall_app. split; [|exact H2].
  apply lang_cat_inv in H1. destruct H1 as (c & r1 & -> & Hc & H1).
  apply lang_chr_inv in Hc. destruct Hc as (c0 & -> & Hc0).
  apply Ascii.eqb_eq in Hc0. subst c0.
  apply lang_cat_inv in H1. destruct H1 as (d1 & r2 & -> & Hd1 & H1).
  apply lang_cat_inv in H1. destruct H1 as (d2 & d3 & -> & Hd2 & Hd3).
  apply lang_digit in Hd1, Hd2, Hd3.
  destruct Hd1 as (A1 & _ & E1), Hd2 as (A2 & _ & E2), Hd3 as (A3 & _ & E3).
  simpl. rewrite !filter_app, E1, E2, E3.
  repeat (apply Forall_app; split); assumption.
Qed.

Lemma lang_sign l : lang sign_re l -> exists sg, l = [sg] /\ is_sign sg = true.
Proof. apply lang_chr_inv. Qed.

Lemma number_re_plain l : lang number_re l -> plain_number (filter not_comma l).
Proof.
  intros H. apply lang_alt_inv in H. destruct H as [H|H].
  - apply lang_cat_inv in H. destruct H as (s & r & -> & Hs & H).
    apply lang_sign in Hs. destruct Hs as (sg & -> & Hsg).
    apply lang_cat_inv in H. destruct H as (hd & r1 & -> & Hhd & H).
    apply lang_cat_inv in Hhd. destruct Hhd as (d1 & o & -> & Hd1 & Ho).
    apply lang_cat_inv in Ho. destruct Ho as (o2 & o3 & -> & Ho2 & Ho3).
    apply lang_cat_inv in H. destruct H as (gs & fr & -> & Hgs & Hfr).
    apply lang_digit in Hd1. destruct Hd1 as (A1 & N1 & E1).
    apply lang_opt_digit in Ho2, Ho3. apply lang_comma_groups in Hgs.
    apply lang_fraction in Hfr. destruct Hfr as (Hfr & Efr).
    destruct (is_sign_facts sg Hsg) as (Hnc & _).
    simpl. rewrite Hnc. rewrite !filter_app, E1, Efr, !app_assoc.
    constructor; trivial.
    + destruct d1; [contradiction|discriminate].
    + repeat (apply Forall_app; split); assumption.
  - apply lang_cat_inv in H. destruct H as (s & r & -> & Hs & H).
    apply lang_sign in Hs. destruct Hs as (sg & -> & Hsg).
    apply lang_cat_inv in H. destruct H as (ds & fr & -> & Hds & Hfr).
    apply lang_digits in Hds. destruct Hds as [Hd Hne].
    apply lang_fraction in Hfr. destruct Hfr as (Hfr & Efr).
    destruct (is_sign_facts sg Hsg) as (Hnc & _).
    simpl. rewrite Hnc. rewrite filter_app, Efr, (all_digits_filter _ Hd).
    now constructor.
Qed.

Lemma more_digits_all acc n ds rest :
  all_digits ds ->
  (rest = [] \/ exists x, rest = "."%char :: x) ->
  exists m, more_digits acc n (ds ++ rest) = (m, (n + List.length ds)%nat, rest).
Proof.
  intros Hds Hrest. revert acc n.
  induction Hds as [|c ds Hc _ IH]; intros acc n; simpl.
  - rewrite Nat.add_0_r. destruct Hrest as [->|(x & ->)]; simpl; eauto.
  - rewrite Hc, Nat.add_succ_r. apply (IH _ (S n)).
Qed.

Lemma digitpart_all ds rest :
  all_digits ds -> ds <> [] ->
  (rest = [] \/ exists x, rest = "."%char :: x) ->
  exists m k, digitpart (ds ++ rest) = Some (m, k, rest).
Proof.
  intros Hds Hne Hrest. destruct ds as [|d ds]; [contradiction|].
  apply Forall_cons_iff in Hds. destruct Hds as [Hd Hds].
  simpl. rewrite Hd.
  destruct (more_digits_all (digit_val d) 1 ds rest Hds Hrest) as [m ->]. eauto.
Qed.

Lemma floatnumber_plain ds frac :
  all_digits ds -> ds <> [] -> fraction frac ->
  exists q, floatnumber (ds ++ frac) = Some q.
Proof.
  intros Hds Hne Hfrac. unfold floatnumber.
  destruct Hfrac as [->|(fd & -> & Hfne & Hfd)].
  - destruct (digitpart_all ds [] Hds Hne (or_introl eq_refl)) as (m & k & ->).
    eauto.
  - destruct (digitpart_all ds ("."%char :: fd) Hds Hne) as (m & k & ->); [eauto|].
    simpl.
    destruct (digitpart_all fd [] Hfd Hfne (or_introl eq_refl)) as (m2 & k2 & Hfd2).
    rewrite app_nil_r in Hfd2. rewrite Hfd2.
    destruct (more_digits m 0 fd) as [[m3 k3] l3]. simpl. eauto.
Qed.

Lemma word_is_on_digit w0 w d rest :
  Ascii.eqb w0 (lower d) = false -> word_is (String w0 w) (d :: rest) = false.
Proof. intros H. unfold word_is. simpl. now rewrite H. Qed.

Lemma fraction_no_space frac c : fraction frac -> In c frac -> is_space c = false.
Proof.
  intros [->|(fd & -> & _ & Hfd)] Hin; [destruct Hin|].
  destruct Hin as [<-|Hin]; [reflexivity|].
  unfold all_digits in Hfd. rewrite Forall_forall in Hfd.
  now apply digit_facts, Hfd.
Qed.

Lemma plain_number_no_space l c : plain_number l -> In c l -> is_space c = false.
Proof.
  intros [sg ds frac Hsg Hne Hds Hfrac] Hin.
  destruct Hin as [<-|Hin]; [now apply is_sign_facts|].
  apply in_app_or in Hin. destruct Hin as [Hin|Hin].
  - unfold all_digits in Hds. rewrite Forall_forall in Hds.
    now apply digit_facts, Hds.
  - now apply (fraction_no_space frac).
Qed.

Lemma lstrip_no_space l :
  (forall c, In c l -> is_space c = false) -> lstrip l = l.
Proof.
  destruct l as [|c l]; [reflexivity|]. intros H. simpl.
  now rewrite (H c (or_introl eq_refl)).
Qed.

Lemma py_strip_no_space l :
  (forall c, In c l -> is_space c = false) ->
  py_strip (string_of_list_ascii l) = string_of_list_ascii l.
Proof.
  intros H. unfold py_strip.
  rewrite list_ascii_of_string_of_list_ascii, (lstrip_no_space l H).
  rewrite lstrip_no_space, rev_involutive; [reflexivity|].
  intros c Hc. apply H. now apply in_rev.
Qed.

Lemma plain_number_parses l :
  plain_number l -> exists q, float_of_string (string_of_list_ascii l) = Some (Fin q).
Proof.
  intros Hplain. unfold float_of_string.
  rewrite (py_strip_no_space l) by (intros c; now apply plain_number_no_space).
  rewrite list_ascii_of_string_of_list_ascii.
  destruct Hplain as [sg ds frac Hsg Hne Hds Hfrac].
  assert (Hread : read_sign (sg :: ds ++ frac) = (Ascii.eqb sg "-"%char, ds ++ frac)).
  { unfold is_sign in Hsg. apply orb_true_iff in Hsg.
    destruct Hsg as [H|H]; apply Ascii.eqb_eq in H; now subst. }
  rewrite Hread.
  destruct (floatnumber_plain ds frac Hds Hne Hfrac) as [q Hq].
  destruct ds as [|d ds]; [contradiction|].
  apply Forall_cons_iff in Hds. destruct Hds as [Hd _].
  destruct (digit_facts d Hd) as (_ & _ & Hlow & Hi & Hn).
  simpl app in *.
  rewrite !word_is_on_digit by (now rewrite Hlow).
  simpl. rewrite Hq. simpl. eauto.
Qed.

(** A text that [SINGLE_SIGN_NUMBER_RE] matches: group 1 is the stripped
    text, and [parse_signed_token] gives a finite value for it. *)
Lemma number_token_parses text token :
  SINGLE_SIGN_NUMBER_RE_match text = Some token ->
  token = py_strip text /\
  exists val, parse_signed_token token = Some (Fin val).
Proof.
  unfold SINGLE_SIGN_NUMBER_RE_match.
  destruct (fullmatch number_re _) eqn:Hm; [|discriminate].
  intros [= <-]. split; [reflexivity|].
  apply fullmatch_lang, number_re_plain in Hm.
  unfold parse_signed_token, remove_commas.
  now apply plain_number_parses.
Qed.

(** At a finite rate.  A reply by an administrator whose text matches
    [SINGLE_SIGN_NUMBER_RE], the rate read by [get_rate] being the finite
    [r].  The token parses to [val].  If [abs(val) >= 0.00001],
    [message_handler] adds exactly one row to the table, for the author of
    the message replied to, with [amount_inr = val] and [amount_usdt] equal
    to [val / r], or to 0 when [r] is 0; for [r >= 0] the two amounts are on
    the same side of zero.  If [abs(val) < 0.00001] the database stays as it
    is. *)
Lemma message_handler_records_adjustment u s target token r :
  reply_to u = Some target ->
  sender_is_admin u = true ->
  SINGLE_SIGN_NUMBER_RE_match (py_strip (msg_text u)) = Some token ->
  fst (get_rate s) = Fin r ->
  exists val,
    parse_signed_token token = Some (Fin val) /\
    ((Qabs val < 1 # 100000)%Q -> message_handler u s = Some s) /\
    ((1 # 100000 <= Qabs val)%Q ->
     exists s' e,
       message_handler u s = Some s' /\
       entries s' = entries s ++ [e] /\
       user_id e = tg_id target /\
       username e = target_name target /\
       amount_inr e = val /\
       amount_usdt e = (if Qeq_bool r 0 then 0 else val / r)%Q /\
       ((0 <= r)%Q -> same_sign (amount_inr e) (amount_usdt e))).
Proof.
  intros Hreply Hadmin Hmatch Hrate.
  destruct (number_token_parses _ _ Hmatch) as [_ [val Hparse]].
  exists val. split; [exact Hparse|]. split.
  - intros Hsmall.
    destruct (message_handler_rejects u s) as (_ & _ & Hreject).
    apply (Hreject token (Fin val) Hmatch Hparse).
    unfold float_lt, float_abs, MIN_MAGNITUDE. now apply Qlt_bool_iff.
  - intros Hmag. now apply (message_handler_appends u s target token val r).
Qed.

(** ** A rate that is not a number *)

(** C1 fails on the code.  [/rate nan], sent by an administrator, passes
    the test [r <= 0] of [rate_cmd], which is false for a NaN, and the rate
    that [get_rate] reads from then on is NaN.  The reply [+5] is matched,
    parses to 5 and passes the magnitude test; the converted amount
    [5 / nan] is a NaN; and the row that [add_entry] stores holds 5 and
    NULL: [amount_usdt] is not [amount_inr / rate], and it has no sign. *)
Theorem reply_at_nan_rate_stores_null :
  let s1 := rate_cmd rate_nan fresh_db in
  (sender_is_admin rate_nan = true /\
   float_of_string "nan" = Some NaN /\
   float_le NaN (Fin 0) = false /\
   fst (get_rate s1) = NaN) /\
  (SINGLE_SIGN_NUMBER_RE_match (py_strip (msg_text reply_plus_5))
   = Some "+5"%string /\
   parse_signed_token "+5" = Some (Fin 5) /\
   float_lt (float_abs (Fin 5)) MIN_MAGNITUDE = false) /\
  to_usdt (Fin 5) (fst (get_rate s1)) = NaN /\
  add_entry_stored (now reply_plus_5) (tg_id alice) (target_name alice)
                   (Fin 5) (to_usdt (Fin 5) (fst (get_rate s1)))
                   (stored_rows s1) (sqlite_sequence s1)
  = (1, [mk_stored 1 11 "alice" (SqlDouble (Fin 5)) SqlNull (now reply_plus_5)]).
Proof. repeat split. Qed.

(** C10 fails on the code, by the same defect.  After [/rate nan] the
    command [/add bob 5] converts at the rate NaN as well, and the row
    stored, 5 and NULL, does not have its two amounts on the same side of
    zero.  [/add bob nan], at the default rate, stores NULL twice. *)
Theorem add_at_nan_rate_breaks_same_sign :
  let s1 := rate_cmd rate_nan fresh_db in
  (args add_bob_5 = ["bob"; "5"]%string /\
   float_of_string (remove_commas "5") = Some (Fin 5) /\
   fst (get_rate s1) = NaN) /\
  (exists row,
     add_entry_stored (now add_bob_5) 0 "bob"
                      (Fin 5) (to_usdt (Fin 5) (fst (get_rate s1)))
                      (stored_rows s1) (sqlite_sequence s1)
     = (1, [row]) /\
     stored_inr row = SqlDouble (Fin 5) /\ stored_usdt row = SqlNull /\
     ~ stored_same_sign row) /\
  (float_of_string (remove_commas "nan") = Some NaN /\
   exists row,
     add_entry_stored (now add_bob_5) 0 "bob"
                      NaN (to_usdt NaN (fst (get_rate fresh_db)))
                      (stored_rows fresh_db) (sqlite_sequence fresh_db)
     = (1, [row]) /\
     stored_inr row = SqlNull /\ stored_usdt row = SqlNull /\
     ~ stored_same_sign row).
Proof.
  split; [repeat split|]. split; [|split; [reflexivity|]].
  - eexists. split; [reflexivity|]. repeat split. intros H. exact H.
  - eexists. split; [reflexivity|]. repeat split. intros H. exact H.
Qed.

(** ** The primary key *)

Lemma NoDup_map_filter {A B : Type} (f : A -> B) (p : A -> bool) l :
  NoDup (map f l) -> NoDup (map f (filter p l)).
Proof.
  induction l as [|x l IH]; intros Hnd; simpl; [constructor|].
  simpl in Hnd. apply NoDup_cons_iff in Hnd. destruct Hnd as [Hx Hnd].
  destruct (p x); simpl; [|now apply IH].
  constructor; [|now apply IH].
  intros Hin. apply Hx. apply in_map_iff in Hin.
  destruct Hin as (y & Hy & Hin). apply filter_In in Hin.
  rewrite <- Hy. apply in_map. apply Hin.
Qed.

Lemma add_entry_ids now uid name inr usdt s rowid s' :
  add_entry now uid name inr usdt s = Some (rowid, s') ->
  ids s' = ids s ++ [next_rowid s].
Proof.
  destruct inr as [a| |], usdt as [u| |];
    try (unfold add_entry; simpl; try discriminate;
         destruct (to_real _); discriminate).
  rewrite add_entry_finite. intros [= _ <-].
  unfold ids. simpl. now rewrite map_app.
Qed.

Lemma add_entry_NoDup now uid name inr usdt s rowid s' :
  add_entry now uid name inr usdt s = Some (rowid, s') ->
  NoDup (ids s) -> NoDup (ids s').
Proof.
  intros Hadd Hnd. rewrite (add_entry_ids _ _ _ _ _ _ _ _ Hadd).
  apply NoDup_rev in Hnd. rewrite <- (rev_involutive (_ ++ _)).
  apply NoDup_rev. rewrite rev_app_distr. simpl.
  constructor; [|exact Hnd].
  rewrite <- in_rev. unfold ids. intros Hin. apply in_map_iff in Hin.
  destruct Hin as (x & Hx & Hin). apply next_rowid_fresh in Hin. lia.
Qed.

Lemma handle_NoDup ev s s' :
  NoDup (ids s) -> handle ev s = Some s' -> NoDup (ids s').
Proof.
  intros Hnd.
  assert (Hsame : forall t, entries t = entries s -> NoDup (ids t)).
  { intros t Ht. unfold ids. now rewrite Ht. }
  destruct ev as [u|u|u|u|u|data u|u]; simpl.
  - unfold message_handler.
    destruct (String.eqb (msg_text u) ""); [now intros [= <-]|].
    destruct (reply_to u) as [target|]; [|now intros [= <-]].
    destruct (SINGLE_SIGN_NUMBER_RE_match _) as [token|]; [|now intros [= <-]].
    destruct (negb (sender_is_admin u)); [now intros [= <-]|].
    destruct (parse_signed_token token) as [val|]; [|now intros [= <-]].
    destruct (float_lt _ _); [now intros [= <-]|].
    rewrite (surjective_pairing (get_rate s)).
    destruct (add_entry _ _ _ _ _ _) as [[rowid s2]|] eqn:Hadd; [|discriminate].
    intros [= <-]. unfold ids. rewrite build_report_entries.
    apply (add_entry_NoDup _ _ _ _ _ _ _ _ Hadd).
    apply Hsame, get_rate_entries.
  - intros [= <-]. apply Hsame. unfold rate_cmd.
    destruct (negb (sender_is_admin u)); [reflexivity|].
    destruct (args u) as [|a rest]; [apply get_rate_entries|].
    destruct (float_of_string a) as [r|]; [|reflexivity].
    now destruct (float_le r (Fin 0)).
  - intros [= <-]. apply Hsame, build_report_entries.
  - unfold add_cmd.
    assert (Hstore : forall now uid name amount,
              add_cmd_store now uid name amount s = Some s' -> NoDup (ids s')).
    { intros now uid name amount. unfold add_cmd_store.
      destruct (float_of_string _) as [val|]; [|now intros [= <-]].
      rewrite (surjective_pairing (get_rate s)).
      destruct (add_entry _ _ _ _ _ _) as [[rowid s2]|] eqn:Hadd; [|discriminate].
      simpl. intros [= <-]. apply (add_entry_NoDup _ _ _ _ _ _ _ _ Hadd).
      apply Hsame, get_rate_entries. }
    destruct (negb (sender_is_admin u)); [now intros [= <-]|].
    destruct (reply_to u) as [target|], (args u) as [|a [|b [|c rest]]];
      try (now intros [= <-]); apply Hstore.
  - intros [= <-]. unfold undo_cmd.
    destruct (negb (sender_is_admin u)); [exact Hnd|].
    unfold delete_last_entry.
    destruct (sort_desc id_ge (entries s)) as [|row rest]; [exact Hnd|].
    simpl. now apply NoDup_map_filter.
  - intros [= <-]. unfold reset_callback.
    destruct (String.eqb data "reset_cancel"); [exact Hnd|].
    destruct (negb (sender_is_admin u)); [exact Hnd|].
    unfold ids. rewrite build_report_entries. constructor.
  - now intros [= <-].
Qed.

(** The ids of a database that the program reaches are distinct. *)
Lemma reachable_ids_NoDup s : reachable s -> NoDup (ids s).
Proof.
  induction 1 as [|s ev s' _ IH Hstep].
  - constructor.
  - exact (handle_NoDup ev s s' IH Hstep).
Qed.

(* ================================================================== *)
(** * Further properties of the code *)

(** ** Listings *)

Lemma StronglySorted_app_inv {A : Type} (R : A -> A -> Prop) l1 l2 :
  StronglySorted R (l1 ++ l2) ->
  StronglySorted R l1 /\ StronglySorted R l2 /\
  (forall x y, In x l1 -> In y l2 -> R x y).
Proof.
  induction l1 as [|a l1 IH]; simpl; intros H.
  - repeat split; [constructor | exact H | intros x y []].
  - apply StronglySorted_inv in H. destruct H as [Hs Hall].
    destruct (IH Hs) as (H1 & H2 & H12).
    rewrite Forall_app in Hall. destruct Hall as [Ha1 Ha2].
    repeat split.
    + now constructor.
    + exact H2.
    + intros x y [<-|Hx] Hy.
      * rewrite Forall_forall in Ha2. now apply Ha2.
      * now apply H12.
Qed.

Lemma StronglySorted_filter {A : Type} (R : A -> A -> Prop) (p : A -> bool) l :
  StronglySorted R l -> StronglySorted R (filter p l).
Proof.
  induction 1 as [|a l Hs IH Hall]; simpl; [constructor|].
  destruct (p a); [|exact IH].
  constructor; [exact IH|].
  rewrite Forall_forall in Hall |- *.
  intros x Hx. apply filter_In in Hx. now apply Hall.
Qed.

Lemma sort_desc_id_sorted l : StronglySorted id_desc (sort_desc id_ge l).
Proof.
  pose proof (sort_desc_sorted id_ge id_ge_total id_ge_trans l) as H.
  induction H as [|x r Hs IH Hall]; constructor; [exact IH|].
  eapply Forall_impl; [|exact Hall].
  intros y Hy. unfold id_ge in Hy. now apply Z.leb_le in Hy.
Qed.

Lemma sql_limit_split {A : Type} (n : Z) (l : list A) :
  exists rest, l = sql_limit n l ++ rest.
Proof.
  unfold sql_limit. destruct (n <? 0).
  - exists []. now rewrite app_nil_r.
  - exists (skipn (Z.to_nat n) l). now rewrite firstn_skipn.
Qed.

Lemma sql_limit_length {A : Type} (n : Z) (l : list A) :
  List.length (sql_limit n l)
  = if n <? 0 then List.length l else Nat.min (Z.to_nat n) (List.length l).
Proof.
  unfold sql_limit. destruct (n <? 0); [reflexivity|]. apply length_firstn.
Qed.

(** The rows of an [ORDER BY id DESC LIMIT n] query over some rows: sorted,
    taken from those rows, and no row left out has a larger id than a row
    taken. *)
Lemma limit_of_sorted n l :
  let rows := sql_limit n (sort_desc id_ge l) in
  StronglySorted id_desc rows /\
  (forall e, In e rows -> In e l) /\
  (forall x y, In x rows -> In y l -> In y rows \/ entry_id y <= entry_id x).
Proof.
  intros rows. subst rows.
  destruct (sql_limit_split n (sort_desc id_ge l)) as [rest Hsplit].
  pose proof (sort_desc_id_sorted l) as Hsorted.
  rewrite Hsplit in Hsorted.
  apply StronglySorted_app_inv in Hsorted. destruct Hsorted as (H1 & _ & H12).
  repeat split.
  - exact H1.
  - intros e He. apply (sort_desc_In id_ge). rewrite Hsplit.
    apply in_or_app. now left.
  - intros x y Hx Hy. apply (sort_desc_In id_ge) in Hy. rewrite Hsplit in Hy.
    apply in_app_or in Hy. destruct Hy as [Hy|Hy]; [now left|right].
    now apply (H12 x y).
Qed.

(** X1.  [get_last_entries(limit)] returns rows of the table, the largest
    id first; it returns [min(limit, number of rows)] rows, all of them for a
    negative limit; and a row that it leaves out has no larger id than any
    row that it returns. *)
Theorem get_last_entries_newest_first limit s :
  let rows := get_last_entries limit s in
  StronglySorted id_desc rows /\
  (forall e, In e rows -> In e (entries s)) /\
  List.length rows
  = (if limit <? 0 then List.length (entries s)
     else Nat.min (Z.to_nat limit) (List.length (entries s))) /\
  (forall x y, In x rows -> In y (entries s) ->
               In y rows \/ entry_id y <= entry_id x).
Proof.
  intros rows. subst rows. unfold get_last_entries.
  destruct (limit_of_sorted limit (entries s)) as (Hs & Hin & Htop).
  repeat split; trivial.
  rewrite sql_limit_length.
  now rewrite <- (Permutation_length (sort_desc_perm id_ge (entries s))).
Qed.

Lemma cmd_limit_range args : 1 <= cmd_limit args <= 100.
Proof.
  unfold cmd_limit. destruct args as [|a rest]; [lia|].
  destruct (int_of_string a) as [n|]; lia.
Qed.

Lemma listing_of_NoEntries with_name rows :
  listing_of with_name rows = NoEntries <-> rows = [].
Proof.
  destruct rows; simpl; split; intros H; try reflexivity; discriminate.
Qed.

Lemma sql_limit_nil_iff {A : Type} (n : Z) (l : list A) :
  n <> 0 -> (sql_limit n l = [] <-> l = []).
Proof.
  intros Hn. unfold sql_limit. destruct (n <? 0) eqn:E; [tauto|].
  apply Z.ltb_ge in E. destruct l as [|x l]; [now rewrite firstn_nil|].
  destruct (Z.to_nat n) eqn:Hk; [lia|]. simpl. split; discriminate.
Qed.


(** X3.  [/myentries] lists rows of the sender only, the newest first, at
    most 100 of them; among the sender's rows none that is left out has a
    larger id than one that is listed; and the answer is "You have no
    entries yet." exactly when the table has no row of the sender. *)
Theorem myentries_cmd_rows_of_sender sender u s :
  let rows := myentries_rows sender u s in
  (forall e, In e rows -> In e (entries s) /\ user_id e = sender) /\
  StronglySorted id_desc rows /\
  (List.length rows <= 100)%nat /\
  (forall x y, In x rows -> In y (entries s) -> user_id y = sender ->
               In y rows \/ entry_id y <= entry_id x) /\
  (myentries_cmd sender u s = NoEntries <->
   forall e, In e (entries s) -> user_id e <> sender).
Proof.
  intros rows. subst rows. unfold myentries_rows.
  pose proof (cmd_limit_range (args u)) as Hr.
  set (mine := filter (fun e => user_id e =? sender) (entries s)).
  destruct (limit_of_sorted (cmd_limit (args u)) mine) as (Hs & Hin & Htop).
  repeat split.
  - apply Hin in H. apply filter_In in H. apply H.
  - apply Hin in H. apply filter_In in H. destruct H as [_ H].
    now apply Z.eqb_eq in H.
  - exact Hs.
  - rewrite sql_limit_length.
    assert (Hpos : (cmd_limit (args u) <? 0) = false) by (apply Z.ltb_ge; lia).
    rewrite Hpos. lia.
  - intros x y Hx Hy Hmine. apply (Htop x y Hx).
    apply filter_In. split; [exact Hy | now apply Z.eqb_eq].
  - unfold myentries_cmd, myentries_rows. fold mine.
    rewrite listing_of_NoEntries, sql_limit_nil_iff by lia.
    intros Hnil e He Hsender. apply sort_desc_nil in Hnil.
    assert (Hin' : In e mine).
    { apply filter_In. split; [exact He | now apply Z.eqb_eq]. }
    rewrite Hnil in Hin'. destruct Hin'.
  - unfold myentries_cmd, myentries_rows. fold mine.
    rewrite listing_of_NoEntries, sql_limit_nil_iff by lia.
    intros Hnone. destruct mine as [|e rest] eqn:Hm; [reflexivity|].
    assert (Hin' : In e mine) by (rewrite Hm; now left).
    apply filter_In in Hin'. destruct Hin' as [He Hs'].
    apply Z.eqb_eq in Hs'. now destruct (Hnone e He).
Qed.

Lemma id_le_total x y : id_le x y = false -> id_le y x = true.
Proof. unfold id_le. intros H. apply Z.leb_gt in H. apply Z.leb_le. lia. Qed.

Lemma id_le_trans x y z : id_le x y = true -> id_le y z = true -> id_le x z = true.
Proof. unfold id_le. rewrite !Z.leb_le. lia. Qed.

Lemma order_by_id_sorted l : StronglySorted id_asc (order_by_id l).
Proof.
  pose proof (sort_desc_sorted id_le id_le_total id_le_trans l) as H.
  unfold order_by_id.
  induction H as [|x r Hs IH Hall]; constructor; [exact IH|].
  eapply Forall_impl; [|exact Hall].
  intros y Hy. unfold id_le in Hy. now apply Z.leb_le in Hy.
Qed.

(** X4.  [/export]: refused to a sender who is not an administrator;
    "No entries to export." on an empty table; otherwise a document with the
    five-column header and one line for every row of the table, each row
    once, by ascending id. *)
Theorem export_cmd_all_rows u s :
  (sender_is_admin u = false -> export_cmd u s = ExportRefused) /\
  (sender_is_admin u = true -> entries s = [] -> export_cmd u s = ExportNothing) /\
  (sender_is_admin u = true -> entries s <> [] ->
   exists rows,
     export_cmd u s
     = ExportCsv ["id"; "username"; "amount_inr"; "amount_usdt"; "timestamp"]%string
                 (map csv_of rows) /\
     Permutation (entries s) rows /\
     StronglySorted id_asc rows).
Proof.
  unfold export_cmd. split; [|split].
  - now intros ->.
  - intros -> ->. reflexivity.
  - intros -> Hne. simpl.
    exists (order_by_id (entries s)). split; [|split].
    + destruct (order_by_id (entries s)) eqn:E; [|reflexivity].
      apply sort_desc_nil in E. contradiction.
    + apply sort_desc_perm.
    + apply order_by_id_sorted.
Qed.

(** ** Adding and undoing *)

Lemma filter_all_kept {A : Type} (p : A -> bool) l :
  (forall x, In x l -> p x = true) -> filter p l = l.
Proof.
  intros H. apply forallb_filter_id. apply forallb_forall. exact H.
Qed.

Lemma next_rowid_above_counter s : sqlite_sequence s < next_rowid s.
Proof. unfold next_rowid. destruct (max_id (entries s)); lia. Qed.

(** X5.  An [add_entry] followed by [delete_last_entry]: the deletion
    returns the id that the insertion assigned and leaves the table as it
    was before the insertion, with the rate untouched.  The counter stays
    advanced, so the next insertion gets a larger id, not the deleted one. *)
Theorem add_entry_then_delete_last now uid uname a u s :
  exists rowid s1 s2,
    add_entry now uid uname (Fin a) (Fin u) s = Some (rowid, s1) /\
    delete_last_entry s1 = (Some rowid, s2) /\
    entries s2 = entries s /\
    meta_rate s2 = meta_rate s /\
    (forall x, In x (entries s) -> entry_id x < rowid) /\
    rowid < next_rowid s2.
Proof.
  set (row := mk_entry (next_rowid s) uid uname a u now).
  exists (next_rowid s). eexists. eexists.
  split; [apply add_entry_finite|].
  assert (Hdel : forall x rest,
            sort_desc id_ge (entries s ++ [row]) = x :: rest ->
            entry_id x = next_rowid s).
  { intros x rest Hsort.
    assert (Hx : In x (entries s ++ [row])).
    { apply (sort_desc_In id_ge). rewrite Hsort. now left. }
    assert (Hrow : In row (entries s ++ [row])).
    { apply in_or_app. right. now left. }
    destruct (sort_desc_head id_ge id_ge_total id_ge_trans _ _ _ Hsort row Hrow)
      as [<-|Hge]; [reflexivity|].
    unfold id_ge in Hge. apply Z.leb_le in Hge. simpl in Hge.
    apply in_app_or in Hx. destruct Hx as [Hx|[<-|[]]]; [|reflexivity].
    apply next_rowid_fresh in Hx. lia. }
  subst row. unfold delete_last_entry. simpl entries.
  destruct (sort_desc id_ge (entries s ++ [_])) as [|x rest] eqn:Hsort.
  { apply sort_desc_nil in Hsort. destruct (entries s); discriminate. }
  rewrite (Hdel x rest eq_refl). split; [reflexivity|]. simpl.
  split; [|split; [reflexivity|split]].
  - rewrite filter_app. simpl. rewrite Z.eqb_refl. simpl. rewrite app_nil_r.
    apply filter_all_kept. intros y Hy. apply next_rowid_fresh in Hy.
    apply negb_true_iff. apply Z.eqb_neq. lia.
  - intros y Hy. now apply next_rowid_fresh.
  - apply (next_rowid_above_counter (mk_db _ (next_rowid s) (meta_rate s))).
Qed.

Lemma get_rate_sequence s : sqlite_sequence (snd (get_rate s)) = sqlite_sequence s.
Proof.
  unfold get_rate. destruct (meta_rate s) as [t|]; [|reflexivity].
  now destruct (float_of_text t).
Qed.

Lemma get_rate_next_rowid s : next_rowid (snd (get_rate s)) = next_rowid s.
Proof. unfold next_rowid. now rewrite get_rate_entries, get_rate_sequence. Qed.

Lemma build_report_sequence n s :
  sqlite_sequence (snd (build_report n s)) = sqlite_sequence s.
Proof. rewrite build_report_db. apply get_rate_sequence. Qed.

(** An insertion of a converted amount, as the handlers do it. *)
Lemma add_entry_table_change now uid name val s rowid s' :
  add_entry now uid name val (to_usdt val (fst (get_rate s))) (snd (get_rate s))
  = Some (rowid, s') ->
  table_change s s'.
Proof.
  intros Hadd.
  destruct val as [a| |];
    try (unfold add_entry in Hadd; simpl in Hadd; discriminate).
  destruct (to_usdt (Fin a) (fst (get_rate s))) as [u| |] eqn:Hu;
    try (unfold add_entry in Hadd; simpl in Hadd;
         destruct (to_real _); discriminate).
  rewrite add_entry_finite in Hadd. injection Hadd as _ <-.
  apply (tc_append s _ uid name a u now Hu); simpl.
  - now rewrite get_rate_entries, get_rate_next_rowid.
  - apply get_rate_next_rowid.
Qed.

(** Every handler changes the table in one of the four ways. *)
Lemma handle_table_change ev s s' : handle ev s = Some s' -> table_change s s'.
Proof.
  assert (Hsame : Some s = Some s' -> table_change s s').
  { intros [= <-]. now apply tc_same. }
  assert (Hrate : table_change s (snd (get_rate s))).
  { apply tc_same; [apply get_rate_entries | apply get_rate_sequence]. }
  destruct ev as [u|u|u|u|u|data u|u]; simpl.
  - unfold message_handler.
    destruct (String.eqb (msg_text u) ""); [exact Hsame|].
    destruct (reply_to u) as [target|]; [|exact Hsame].
    destruct (SINGLE_SIGN_NUMBER_RE_match _) as [token|]; [|exact Hsame].
    destruct (negb (sender_is_admin u)); [exact Hsame|].
    destruct (parse_signed_token token) as [val|]; [|exact Hsame].
    destruct (float_lt _ _); [exact Hsame|].
    rewrite (surjective_pairing (get_rate s)).
    destruct (add_entry _ _ _ _ _ _) as [[rowid s2]|] eqn:Hadd; [|discriminate].
    intros [= <-]. apply add_entry_table_change in Hadd.
    destruct Hadd as [He Hq|uid name a v stamp Hu He Hq|last He Hq|He Hq].
    + apply tc_same; [now rewrite build_report_entries
                     | now rewrite build_report_sequence].
    + apply (tc_append s _ uid name a v stamp Hu);
        [now rewrite build_report_entries | now rewrite build_report_sequence].
    + apply (tc_delete s _ last);
        [now rewrite build_report_entries | now rewrite build_report_sequence].
    + apply tc_clear; [now rewrite build_report_entries
                      | now rewrite build_report_sequence].
  - clear Hsame. intros [= <-]. unfold rate_cmd.
    destruct (negb (sender_is_admin u)); [now apply tc_same|].
    destruct (args u) as [|a rest]; [exact Hrate|].
    destruct (float_of_string a) as [r|]; [|now apply tc_same].
    destruct (float_le r (Fin 0)); now apply tc_same.
  - intros [= <-]. unfold summary_cmd.
    apply tc_same; [apply build_report_entries | apply build_report_sequence].
  - unfold add_cmd.
    assert (Hstore : forall now uid name amount,
              add_cmd_store now uid name amount s = Some s' -> table_change s s').
    { intros now uid name amount. unfold add_cmd_store.
      destruct (float_of_string _) as [val|]; [|exact Hsame].
      rewrite (surjective_pairing (get_rate s)).
      destruct (add_entry _ _ _ _ _ _) as [[rowid s2]|] eqn:Hadd; [|discriminate].
      simpl. intros [= <-]. now apply add_entry_table_change in Hadd. }
    destruct (negb (sender_is_admin u)); [exact Hsame|].
    destruct (reply_to u) as [target|], (args u) as [|a [|b [|c rest]]];
      try exact Hsame; apply Hstore.
  - clear Hsame. intros [= <-]. unfold undo_cmd.
    destruct (negb (sender_is_admin u)); [now apply tc_same|].
    unfold delete_last_entry.
    destruct (sort_desc id_ge (entries s)) as [|row rest]; [now apply tc_same|].
    now apply (tc_delete s _ (entry_id row)).
  - clear Hsame. intros [= <-]. unfold reset_callback.
    destruct (String.eqb data "reset_cancel"); [now apply tc_same|].
    destruct (negb (sender_is_admin u)); [now apply tc_same|].
    apply tc_clear; [now rewrite build_report_entries
                    | now rewrite build_report_sequence].
  - exact Hsame.
Qed.

Lemma next_rowid_in_order s : ids_in_order s -> next_rowid s = sqlite_sequence s + 1.
Proof.
  intros (_ & Hall & Hseq). unfold next_rowid.
  destruct (max_id (entries s)) as [m|] eqn:E; [|reflexivity].
  assert (Hm : m <= sqlite_sequence s).
  { destruct (entries s) as [|e l] eqn:El; [discriminate|].
    simpl in E. injection E as <-.
    unfold ids in Hall. rewrite El in Hall. rewrite Forall_forall in Hall.
    apply fold_max_bound.
    - apply (Hall (entry_id e)). now left.
    - intros x Hx. apply (Hall (entry_id x)). right. now apply in_map. }
  lia.
Qed.

Lemma StronglySorted_snoc_lt l x :
  StronglySorted Z.lt l -> (forall y, In y l -> y < x) ->
  StronglySorted Z.lt (l ++ [x]).
Proof.
  induction 1 as [|a l Hs IH Hall]; intros Hlt; simpl.
  - repeat constructor.
  - constructor.
    + apply IH. intros y Hy. apply Hlt. now right.
    + apply Forall_app. split; [exact Hall|].
      constructor; [|constructor]. apply Hlt. now left.
Qed.

Lemma StronglySorted_map_filter (p : entry -> bool) l :
  StronglySorted Z.lt (map entry_id l) ->
  StronglySorted Z.lt (map entry_id (filter p l)).
Proof.
  induction l as [|e l IH]; simpl; intros H; [constructor|].
  apply StronglySorted_inv in H. destruct H as [Hs Hall].
  destruct (p e); simpl; [|now apply IH].
  constructor; [now apply IH|].
  rewrite Forall_forall in Hall |- *. intros i Hi. apply Hall.
  apply in_map_iff in Hi. destruct Hi as (x & <- & Hx).
  apply filter_In in Hx. apply in_map. apply Hx.
Qed.

Lemma table_change_in_order s s' :
  ids_in_order s -> table_change s s' ->
  ids_in_order s' /\
  sqlite_sequence s <= sqlite_sequence s' /\
  (forall e, In e (entries s') ->
             In e (entries s) \/ sqlite_sequence s < entry_id e).
Proof.
  intros Hord Hch. pose proof (next_rowid_in_order s Hord) as Hnext.
  destruct Hord as (Hsorted & Hall & Hseq).
  destruct Hch as [He Hq|uid name a v stamp Hu He Hq|last He Hq|He Hq];
    unfold ids_in_order, ids in *; rewrite He, Hq.
  - repeat split; trivial; try lia. intros e Hin. now left.
  - rewrite map_app. simpl. repeat split; try lia.
    + apply StronglySorted_snoc_lt; [exact Hsorted|].
      intros y Hy. rewrite Forall_forall in Hall. specialize (Hall y Hy). lia.
    + apply Forall_app. split.
      * eapply Forall_impl; [|exact Hall]. simpl. intros i Hi. lia.
      * constructor; [lia|constructor].
    + intros e Hin. apply in_app_or in Hin.
      destruct Hin as [Hin|[<-|[]]]; [now left|right]. simpl. lia.
  - repeat split; try lia.
    + now apply StronglySorted_map_filter.
    + rewrite Forall_forall in Hall |- *. intros i Hi. apply Hall.
      apply in_map_iff in Hi. destruct Hi as (x & <- & Hx).
      apply filter_In in Hx. apply in_map. apply Hx.
    + intros e Hin. apply filter_In in Hin. left. apply Hin.
  - split; [|split].
    + repeat split; try constructor; lia.
    + lia.
    + intros e [].
Qed.

Lemma reachable_ids_in_order s : reachable s -> ids_in_order s.
Proof.
  induction 1 as [|s ev s' _ IH Hstep].
  - repeat split; try constructor. simpl. lia.
  - apply handle_table_change in Hstep.
    now apply (table_change_in_order s s').
Qed.

(** X6.  In every database that the program reaches from a new file the
    ids are positive, increase along the table and are not above the
    [AUTOINCREMENT] counter.  No handler lowers the counter, and a row that a
    handler adds has an id above the counter: an id, once given, is not
    given again, also after [/undo] and after a reset. *)
Theorem ids_never_reused s :
  reachable s ->
  ids_in_order s /\
  (forall ev s',
     handle ev s = Some s' ->
     sqlite_sequence s <= sqlite_sequence s' /\
     (forall e, In e (entries s') ->
                In e (entries s) \/ sqlite_sequence s < entry_id e)).
Proof.
  intros Hreach. pose proof (reachable_ids_in_order s Hreach) as Hord.
  split; [exact Hord|].
  intros ev s' Hstep. apply handle_table_change in Hstep.
  now apply (table_change_in_order s s').
Qed.

(** ** Who may change the ledger *)

(** X7.  A sender who is not administrator or creator of the chat, or
    whose membership lookup fails, changes nothing: a reply with a signed
    number, [/rate] with or without argument, [/add], [/undo] and both reset
    buttons leave the database as it is, and [/export] is refused. *)
Theorem non_admin_changes_nothing u s :
  sender_is_admin u = false ->
  message_handler u s = Some s /\
  rate_cmd u s = s /\
  add_cmd u s = Some s /\
  undo_cmd u s = s /\
  (forall data, reset_callback data u s = s) /\
  export_cmd u s = ExportRefused.
Proof.
  intros Hno. repeat split.
  - unfold message_handler. rewrite Hno. simpl.
    destruct (String.eqb (msg_text u) ""); [reflexivity|].
    destruct (reply_to u); [|reflexivity].
    now destruct (SINGLE_SIGN_NUMBER_RE_match _).
  - unfold rate_cmd. now rewrite Hno.
  - unfold add_cmd. now rewrite Hno.
  - unfold undo_cmd. now rewrite Hno.
  - intros data. unfold reset_callback. rewrite Hno. simpl.
    now destruct (String.eqb data "reset_cancel").
  - unfold export_cmd. now rewrite Hno.
Qed.

(** X8.  The reset buttons.  Cancel leaves the database as it is, whoever
    presses it.  Any other button, pressed by an administrator, empties the
    table and keeps the [AUTOINCREMENT] counter.  In every case the rate
    that [get_rate] reads afterwards is the one it read before. *)
Theorem reset_callback_effect data u s :
  fst (get_rate (reset_callback data u s)) = fst (get_rate s) /\
  (data = "reset_cancel"%string -> reset_callback data u s = s) /\
  (data <> "reset_cancel"%string -> sender_is_admin u = true ->
   entries (reset_callback data u s) = [] /\
   sqlite_sequence (reset_callback data u s) = sqlite_sequence s).
Proof.
  unfold reset_callback. split; [|split].
  - destruct (String.eqb data "reset_cancel"); [reflexivity|].
    destruct (negb (sender_is_admin u)); [reflexivity|].
    rewrite build_report_db, get_rate_idem.
    now apply get_rate_fst_meta.
  - intros ->. reflexivity.
  - intros Hne Hadmin. apply String.eqb_neq in Hne. rewrite Hne, Hadmin. simpl.
    now rewrite build_report_entries, build_report_sequence.
Qed.

(** ** The rate *)

(** X9.  Reading the rate is stable: after one [get_rate] the row of the
    rate exists, a second [get_rate] returns the same value and writes
    nothing, and the table is not touched. *)
Theorem get_rate_stable s :
  get_rate (snd (get_rate s)) = (fst (get_rate s), snd (get_rate s)) /\
  meta_rate (snd (get_rate s)) <> None /\
  entries (snd (get_rate s)) = entries s /\
  sqlite_sequence (snd (get_rate s)) = sqlite_sequence s.
Proof.
  split; [|split; [|split]].
  - unfold get_rate. destruct (meta_rate s) as [t|] eqn:Ht.
    + destruct (float_of_text t) eqn:Hf; simpl; now rewrite Ht, Hf.
    + reflexivity.
  - unfold get_rate. destruct (meta_rate s) as [t|] eqn:Ht.
    + destruct (float_of_text t); simpl; now rewrite Ht.
    + discriminate.
  - apply get_rate_entries.
  - apply get_rate_sequence.
Qed.

Lemma Qeq_bool_pos v : (0 < v)%Q -> Qeq_bool v 0 = false.
Proof.
  intros Hv. destruct (Qeq_bool v 0) eqn:E; [|reflexivity].
  apply Qeq_bool_iff in E. lra.
Qed.

(** X10.  A change of rate acts on later entries only.  [/rate v] by an
    administrator, [v] a positive number, leaves every row of the table as
    it is; and the next reply with a signed number [val] is stored with
    [amount_usdt = val / v]. *)
Theorem rate_change_applies_to_later_entries u s a rest v u' target token val :
  sender_is_admin u = true ->
  args u = a :: rest ->
  float_of_string a = Some (Fin v) ->
  (0 < v)%Q ->
  reply_to u' = Some target ->
  sender_is_admin u' = true ->
  SINGLE_SIGN_NUMBER_RE_match (py_strip (msg_text u')) = Some token ->
  parse_signed_token token = Some (Fin val) ->
  (1 # 100000 <= Qabs val)%Q ->
  entries (rate_cmd u s) = entries s /\
  exists s' e,
    message_handler u' (rate_cmd u s) = Some s' /\
    entries s' = entries s ++ [e] /\
    amount_inr e = val /\
    amount_usdt e = (val / v)%Q.
Proof.
  intros Hadmin Hargs Hparse Hv Hreply Hadmin' Hmatch Hval Hmag.
  assert (Hcmd : rate_cmd u s = set_rate (Fin v) s).
  { unfold rate_cmd. rewrite Hadmin, Hargs, Hparse. simpl.
    destruct (Qle_bool v 0) eqn:E; [|reflexivity].
    apply Qle_bool_iff in E. lra. }
  rewrite Hcmd. split; [reflexivity|].
  destruct (message_handler_appends u' (set_rate (Fin v) s) target token val v
              Hreply Hadmin' Hmatch Hval Hmag eq_refl)
    as (s' & e & Hrun & Hrows & _ & _ & Hinr & Husdt & _).
  exists s', e. rewrite (Qeq_bool_pos v Hv) in Husdt. now repeat split.
Qed.

(** ** [/add] *)

Lemma add_cmd_store_appends now uid name amount val r s :
  float_of_string (remove_commas amount) = Some (Fin val) ->
  fst (get_rate s) = Fin r ->
  exists s',
    add_cmd_store now uid name amount s = Some s' /\
    entries s'
    = entries s
      ++ [mk_entry (next_rowid s) uid name val
                   (if Qeq_bool r 0 then 0 else val / r)%Q now].
Proof.
  intros Hparse Hrate. unfold add_cmd_store. rewrite Hparse.
  pose proof (get_rate_entries s) as He.
  pose proof (get_rate_next_rowid s) as Hn.
  destruct (get_rate s) as [rate s1]. simpl in *. subst rate.
  rewrite to_usdt_finite, add_entry_finite. simpl.
  eexists. split; [reflexivity|]. simpl. now rewrite He, Hn.
Qed.

(** X11.  [/add] by an administrator, the rate being the finite [r], the
    amount (commas removed) being the number [val], signed or not.  With two
    arguments the row is stored under the name given and user id 0, even
    when the message is a reply; with one argument in a reply it is stored
    for the author of the message replied to.  The row holds
    [amount_inr = val] and [amount_usdt = val / r] (0 for [r = 0]).  Any
    other shape of the command stores nothing. *)
Theorem add_cmd_forms u s r :
  sender_is_admin u = true ->
  fst (get_rate s) = Fin r ->
  (forall name amount val,
     args u = [name; amount] ->
     float_of_string (remove_commas amount) = Some (Fin val) ->
     exists s',
       add_cmd u s = Some s' /\
       entries s'
       = entries s
         ++ [mk_entry (next_rowid s) 0 name val
                      (if Qeq_bool r 0 then 0 else val / r)%Q (now u)]) /\
  (forall target amount val,
     reply_to u = Some target -> args u = [amount] ->
     float_of_string (remove_commas amount) = Some (Fin val) ->
     exists s',
       add_cmd u s = Some s' /\
       entries s'
       = entries s
         ++ [mk_entry (next_rowid s) (tg_id target) (target_name target) val
                      (if Qeq_bool r 0 then 0 else val / r)%Q (now u)]) /\
  (args u = [] \/ (3 <= List.length (args u))%nat \/
   (reply_to u = None /\ List.length (args u) = 1%nat) ->
   add_cmd u s = Some s).
Proof.
  intros Hadmin Hrate. unfold add_cmd. rewrite Hadmin. simpl negb. cbv iota.
  split; [|split].
  - intros name amount val -> Hparse.
    destruct (reply_to u); now apply add_cmd_store_appends.
  - intros target amount val -> -> Hparse. now apply add_cmd_store_appends.
  - intros [->|[Hlen|[-> Hlen]]].
    + now destruct (reply_to u).
    + destruct (args u) as [|a [|b [|c rest]]]; simpl in Hlen; try lia.
      now destruct (reply_to u).
    + destruct (args u) as [|a [|b rest]]; simpl in Hlen; try lia.
      reflexivity.
Qed.

(** ** The report as a whole *)

Lemma others_perm (l : list user_total) r :
  NoDup (map ut_name l) -> In r l ->
  Permutation l (r :: others (ut_name r) l).
Proof.
  induction l as [|y l IH]; intros Hnd Hin; [destruct Hin|].
  simpl in Hnd. apply NoDup_cons_iff in Hnd. destruct Hnd as [Hny Hnd].
  simpl. destruct Hin as [->|Hin].
  - rewrite String.eqb_refl. simpl. apply perm_skip.
    unfold others. rewrite filter_all_kept; [apply Permutation_refl|].
    intros x Hx. apply negb_true_iff. apply String.eqb_neq.
    intros Heq. apply Hny. rewrite <- Heq. now apply in_map.
  - destruct (String.eqb (ut_name y) (ut_name r)) eqn:E.
    + apply String.eqb_eq in E. exfalso. apply Hny. rewrite E. now apply in_map.
    + simpl. eapply perm_trans; [|apply perm_swap].
      apply perm_skip. now apply IH.
Qed.

Lemma reorder_per_user_perm recent per_user :
  NoDup (map ut_name per_user) ->
  Permutation per_user (reorder_per_user recent per_user).
Proof.
  intros Hnd. unfold reorder_per_user.
  destruct recent as [|e recent]; [apply Permutation_refl|].
  destruct (String.eqb (username e) ""); [apply Permutation_refl|].
  pose proof (split_last_user_others (username e) per_user None []) as Hsnd.
  destruct (in_dec string_dec (username e) (map ut_name per_user)) as [Hin|Hnin].
  - destruct (split_last_user_found (username e) per_user None [] Hnd Hin)
      as (r & Hr & Hname & Hfst).
    destruct (split_last_user (username e) per_user None []) as [found reordered].
    simpl in Hfst, Hsnd. subst found reordered. rewrite <- Hname.
    now apply others_perm.
  - pose proof (split_last_user_absent (username e) per_user None [] Hnin) as Hfst.
    destruct (split_last_user (username e) per_user None []) as [found reordered].
    simpl in Hfst. subst found. apply Permutation_refl.
Qed.

Lemma per_user_rows_perm latest_n s :
  Permutation (per_user_query s) (per_user_rows latest_n s).
Proof.
  unfold per_user_rows.
  destruct (per_user_query_groups s) as (Hnd & _).
  destruct (per_user_query s) as [|g rest] eqn:Hq; [constructor|].
  now apply reorder_per_user_perm.
Qed.

(** X12.  The reordering of the per-user section loses nothing: for every
    table and every [latest_n], the rows written are the rows of the query
    in some order, one row for each username of the table and no two rows
    with the same username. *)
Theorem per_user_rows_complete latest_n s :
  Permutation (per_user_query s) (per_user_rows latest_n s) /\
  NoDup (map ut_name (per_user_rows latest_n s)) /\
  (forall name, In name (map ut_name (per_user_rows latest_n s)) <->
                In name (map username (entries s))) /\
  Forall (sums_of (entries s)) (per_user_rows latest_n s).
Proof.
  pose proof (per_user_rows_perm latest_n s) as Hperm.
  destruct (per_user_query_groups s) as (Hnd & Hnames & Hsums).
  assert (Hmap : Permutation (map ut_name (per_user_query s))
                             (map ut_name (per_user_rows latest_n s))).
  { now apply Permutation_map. }
  split; [exact Hperm|]. split; [|split].
  - eapply Permutation_NoDup; eassumption.
  - intros name. rewrite <- Hnames. split; apply Permutation_in;
      [now apply Permutation_sym | exact Hmap].
  - eapply Permutation_Forall; eassumption.
Qed.

(** ** Insertion order *)

Section SortedInput.
Context {A : Type}.
Variable ge : A -> A -> bool.

Lemma sort_desc_of_sorted l :
  StronglySorted (fun x y => ge x y = true) l -> sort_desc ge l = l.
Proof.
  induction 1 as [|x l _ IH Hall]; simpl; [reflexivity|].
  rewrite IH. destruct l as [|y l]; [reflexivity|]. simpl.
  apply Forall_inv in Hall. now rewrite Hall.
Qed.

Lemma insert_desc_last x l :
  (forall y, In y l -> ge x y = false) -> insert_desc ge x l = l ++ [x].
Proof.
  induction l as [|y l IH]; intros H; simpl; [reflexivity|].
  rewrite (H y (or_introl eq_refl)). f_equal. apply IH.
  intros z Hz. apply H. now right.
Qed.

Lemma sort_desc_of_reversed l :
  StronglySorted (fun x y => ge x y = false) l -> sort_desc ge l = rev l.
Proof.
  induction 1 as [|x l _ IH Hall]; simpl; [reflexivity|].
  rewrite IH. apply insert_desc_last.
  intros y Hy. apply in_rev in Hy. rewrite Forall_forall in Hall. now apply Hall.
Qed.
End SortedInput.

Lemma StronglySorted_of_map {A B : Type} (f : A -> B) (R : B -> B -> Prop)
    (S : A -> A -> Prop) l :
  (forall x y, R (f x) (f y) -> S x y) ->
  StronglySorted R (map f l) -> StronglySorted S l.
Proof.
  intros HRS. induction l as [|a l IH]; simpl; intros H; [constructor|].
  apply StronglySorted_inv in H. destruct H as [Hs Hall].
  constructor; [now apply IH|].
  rewrite Forall_forall in Hall |- *. intros x Hx.
  apply HRS, Hall. now apply in_map.
Qed.

(** X14.  In every database that the program reaches from a new file the
    table is in the order of its ids, so [/export] writes the rows in the
    order in which they were recorded, and [get_last_entries(limit)] is the
    first [limit] rows of the table read backwards. *)
Theorem rows_in_insertion_order s :
  reachable s ->
  order_by_id (entries s) = entries s /\
  (forall limit, get_last_entries limit s = sql_limit limit (rev (entries s))).
Proof.
  intros Hreach. destruct (reachable_ids_in_order s Hreach) as (Hsorted & _).
  unfold ids in Hsorted. split.
  - apply sort_desc_of_sorted.
    apply (StronglySorted_of_map entry_id Z.lt); [|exact Hsorted].
    intros x y Hlt. unfold id_le. apply Z.leb_le. lia.
  - intros limit. unfold get_last_entries. f_equal.
    apply sort_desc_of_reversed.
    apply (StronglySorted_of_map entry_id Z.lt); [|exact Hsorted].
    intros x y Hlt. unfold id_ge. apply Z.leb_gt. lia.
Qed.

(** ** The sign of a token *)

Lemma digit_val_nonneg c : is_digit c = true -> 0 <= digit_val c.
Proof.
  unfold is_digit, digit_val. intros H. apply andb_true_iff in H.
  destruct H as [H _]. apply N.leb_le in H. lia.
Qed.

Lemma more_digits_nonneg l :
  (forall acc n, 0 <= acc -> 0 <= fst (fst (more_digits acc n l))) /\
  (forall c acc n, 0 <= acc -> 0 <= fst (fst (more_digits acc n (c :: l)))).
Proof.
  induction l as [|a l [IH1 IH2]].
  - split; [intros acc n H; exact H|].
    intros c acc n H. cbn [more_digits].
    destruct (is_digit c) eqn:Hc; cbn [fst].
    + pose proof (digit_val_nonneg c Hc). lia.
    + now destruct (Ascii.eqb c "_").
  - split; [apply IH2|].
    intros c acc n H. cbn [more_digits].
    destruct (is_digit c) eqn:Hc.
    + apply IH2. pose proof (digit_val_nonneg c Hc). lia.
    + destruct (Ascii.eqb c "_"); [|exact H].
      destruct (is_digit a) eqn:Ha; [|exact H].
      apply IH1. pose proof (digit_val_nonneg a Ha). lia.
Qed.

Lemma digitpart_nonneg l v k rest : digitpart l = Some (v, k, rest) -> 0 <= v.
Proof.
  destruct l as [|c l]; [discriminate|]. simpl.
  destruct (is_digit c) eqn:Hc; [|discriminate].
  intros [= H]. pose proof (proj1 (more_digits_nonneg l) (digit_val c) 1%nat
                              (digit_val_nonneg c Hc)) as Hm.
  rewrite H in Hm. exact Hm.
Qed.

Lemma scale10_nonneg m e : 0 <= m -> (0 <= scale10 m e)%Q.
Proof.
  intros Hm. unfold scale10. destruct (0 <=? e) eqn:E.
  - apply Z.leb_le in E. unfold Qle. simpl.
    pose proof (Z.pow_nonneg 10 e). nia.
  - unfold Qle. simpl. lia.
Qed.

Lemma floatnumber_nonneg l q : floatnumber l = Some q -> (0 <= q)%Q.
Proof.
  unfold floatnumber.
  destruct (digitpart l) as [[[ip k] l1]|] eqn:Hd.
  - pose proof (digitpart_nonneg _ _ _ _ Hd) as Hip.
    destruct l1 as [|c l2].
    + intros [= <-]. now apply scale10_nonneg.
    + destruct (Ascii.eqb c "."); cycle 1.
      { destruct (exponent (c :: l2)); [|discriminate].
        intros [= <-]. now apply scale10_nonneg. }
      destruct (digitpart l2) as [[[_f k2] l3]|].
      * pose proof (proj1 (more_digits_nonneg l2) ip 0%nat Hip) as Hm.
        destruct (more_digits ip 0 l2) as [[m k3] l4]. simpl in Hm.
        destruct (exponent l3); [|discriminate].
        intros [= <-]. now apply scale10_nonneg.
      * destruct (exponent l2); [|discriminate].
        intros [= <-]. now apply scale10_nonneg.
  - destruct l as [|c l2]; [discriminate|].
    destruct (Ascii.eqb c "."); [|discriminate].
    destruct (digitpart l2) as [[[m k2] l3]|] eqn:Hd2; [|discriminate].
    pose proof (digitpart_nonneg _ _ _ _ Hd2) as Hm.
    destruct (exponent l3); [|discriminate].
    intros [= <-]. now apply scale10_nonneg.
Qed.

Lemma number_re_starts_with_sign l :
  lang number_re l -> exists sg rest, l = sg :: rest /\ is_sign sg = true.
Proof.
  intros H. apply lang_alt_inv in H.
  destruct H as [H|H]; apply lang_cat_inv in H;
    destruct H as (s & r & -> & Hs & _);
    apply lang_sign in Hs; destruct Hs as (sg & -> & Hsg);
    exists sg, r; now split.
Qed.

(** X16.  The sign typed is the sign recorded.  A text that
    [SINGLE_SIGN_NUMBER_RE] matches begins, once stripped, with [+] or [-],
    and [parse_signed_token] gives a value [v] with [0 <= v] after [+] and
    [v <= 0] after [-]. *)
Theorem matched_token_sign text token :
  SINGLE_SIGN_NUMBER_RE_match text = Some token ->
  exists sg rest v,
    token = String sg rest /\
    parse_signed_token token = Some v /\
    ((sg = "+"%char /\ float_le (Fin 0) v = true) \/
     (sg = "-"%char /\ float_le v (Fin 0) = true)).
Proof.
  unfold SINGLE_SIGN_NUMBER_RE_match.
  destruct (fullmatch number_re _) eqn:Hm; [|discriminate].
  intros [= <-]. apply fullmatch_lang in Hm.
  destruct (number_re_starts_with_sign _ Hm) as (sg & rest & Hl & Hsg).
  pose proof (number_re_plain _ Hm) as Hplain.
  exists sg, (string_of_list_ascii rest).
  assert (Htoken : py_strip text = String sg (string_of_list_ascii rest)).
  { rewrite <- (string_of_list_ascii_of_string (py_strip text)), Hl. reflexivity. }
  unfold parse_signed_token, remove_commas, float_of_string.
  rewrite (py_strip_no_space _ (fun c => plain_number_no_space _ c Hplain)).
  rewrite list_ascii_of_string_of_list_ascii.
  remember (filter not_comma (list_ascii_of_string (py_strip text))) as l eqn:El.
  destruct Hplain as [sg' ds frac Hsg' Hne Hds Hfrac].
  assert (sg' = sg) as ->.
  { rewrite Hl in El. simpl in El.
    destruct (is_sign_facts sg Hsg) as (Hnc & _). rewrite Hnc in El.
    now injection El. }
  destruct (floatnumber_plain ds frac Hds Hne Hfrac) as [q Hq].
  pose proof (floatnumber_nonneg _ _ Hq) as Hq0.
  assert (Hwords : word_is "inf" (ds ++ frac) = false /\
                   word_is "infinity" (ds ++ frac) = false /\
                   word_is "nan" (ds ++ frac) = false).
  { destruct ds as [|d ds]; [contradiction|].
    apply Forall_cons_iff in Hds. destruct Hds as [Hd _].
    destruct (digit_facts d Hd) as (_ & _ & Hlow & Hi & Hn).
    simpl app. repeat split; apply word_is_on_digit; now rewrite Hlow. }
  destruct Hwords as (W1 & W2 & W3).
  unfold is_sign in Hsg. apply orb_true_iff in Hsg.
  destruct Hsg as [Hs|Hs]; apply Ascii.eqb_eq in Hs; subst sg; simpl read_sign;
    cbv iota; rewrite W1, W2, W3, Hq; simpl.
  - exists (Fin q). repeat split; trivial. left.
    split; [reflexivity|]. simpl. now apply Qle_bool_iff.
  - exists (Fin (- q)%Q). repeat split; trivial. right.
    split; [reflexivity|]. simpl. apply Qle_bool_iff. lra.
Qed.

(** ** Undoing a recorded reply *)

Lemma delete_last_of_appended s1 l row :
  entries s1 = l ++ [row] ->
  (forall x, In x l -> entry_id x < entry_id row) ->
  delete_last_entry s1
  = (Some (entry_id row), mk_db l (sqlite_sequence s1) (meta_rate s1)).
Proof.
  intros He Hlt. unfold delete_last_entry. rewrite He.
  destruct (sort_desc id_ge (l ++ [row])) as [|x rest] eqn:Hsort.
  { apply sort_desc_nil in Hsort. destruct l; discriminate. }
  assert (Hid : entry_id x = entry_id row).
  { assert (Hx : In x (l ++ [row])).
    { apply (sort_desc_In id_ge). rewrite Hsort. now left. }
    assert (Hrow : In row (l ++ [row])) by (apply in_or_app; right; now left).
    destruct (sort_desc_head id_ge id_ge_total id_ge_trans _ _ _ Hsort row Hrow)
      as [<-|Hge]; [reflexivity|].
    unfold id_ge in Hge. apply Z.leb_le in Hge.
    apply in_app_or in Hx. destruct Hx as [Hx|[<-|[]]]; [|reflexivity].
    specialize (Hlt x Hx). lia. }
  rewrite Hid. f_equal. f_equal.
  rewrite filter_app. simpl. rewrite Z.eqb_refl. simpl. rewrite app_nil_r.
  apply filter_all_kept. intros y Hy. specialize (Hlt y Hy).
  apply negb_true_iff. apply Z.eqb_neq. lia.
Qed.

Lemma add_entry_meta now uid name inr usdt s rowid t :
  add_entry now uid name inr usdt s = Some (rowid, t) ->
  meta_rate t = meta_rate s.
Proof.
  unfold add_entry.
  destruct (to_real inr), (to_real (and_or_zero inr usdt)), (to_real usdt);
    try discriminate.
  now intros [= _ <-].
Qed.

Lemma message_handler_rate u s s1 :
  message_handler u s = Some s1 -> fst (get_rate s1) = fst (get_rate s).
Proof.
  unfold message_handler.
  destruct (String.eqb (msg_text u) ""); [now intros [= <-]|].
  destruct (reply_to u) as [target|]; [|now intros [= <-]].
  destruct (SINGLE_SIGN_NUMBER_RE_match _) as [token|]; [|now intros [= <-]].
  destruct (negb (sender_is_admin u)); [now intros [= <-]|].
  destruct (parse_signed_token token) as [val|]; [|now intros [= <-]].
  destruct (float_lt _ _); [now intros [= <-]|].
  rewrite (surjective_pairing (get_rate s)).
  destruct (add_entry _ _ _ _ _ _) as [[rowid s2]|] eqn:Hadd; [|discriminate].
  intros [= <-]. apply add_entry_meta in Hadd.
  rewrite build_report_db, get_rate_idem.
  rewrite (get_rate_fst_meta s2 (snd (get_rate s)) Hadd).
  apply get_rate_idem.
Qed.

(** X17.  [/undo] takes back the last recorded reply.  When an
    administrator's reply has been recorded and an administrator then sends
    [/undo], the table is again what it was before the reply, and the rate
    read is the same; only the [AUTOINCREMENT] counter remembers the row. *)
Theorem undo_cmd_after_message u s target token val r u2 :
  reply_to u = Some target ->
  sender_is_admin u = true ->
  SINGLE_SIGN_NUMBER_RE_match (py_strip (msg_text u)) = Some token ->
  parse_signed_token token = Some (Fin val) ->
  (1 # 100000 <= Qabs val)%Q ->
  fst (get_rate s) = Fin r ->
  sender_is_admin u2 = true ->
  exists s1,
    message_handler u s = Some s1 /\
    entries s1 <> entries s /\
    entries (undo_cmd u2 s1) = entries s /\
    fst (get_rate (undo_cmd u2 s1)) = fst (get_rate s) /\
    sqlite_sequence s < sqlite_sequence (undo_cmd u2 s1).
Proof.
  intros Hreply Hadmin Hmatch Hparse Hmag Hrate Hadmin2.
  destruct (message_handler_appends u s target token val r
              Hreply Hadmin Hmatch Hparse Hmag Hrate)
    as (s1 & e & Hrun & Hrows & _).
  exists s1. split; [exact Hrun|].
  pose proof (handle_table_change (OnMessage u) s s1 Hrun) as Hch.
  assert (Hshape : exists row,
            entries s1 = entries s ++ [row] /\ entry_id row = next_rowid s /\
            sqlite_sequence s1 = next_rowid s).
  { destruct Hch as [He _|uid name a v stamp _ He Hq|last He _|He _].
    - exfalso. rewrite He in Hrows.
      apply (f_equal (@List.length entry)) in Hrows.
      rewrite length_app in Hrows. simpl in Hrows. lia.
    - eexists. split; [exact He|]. split; [reflexivity|exact Hq].
    - exfalso. apply (f_equal (@List.length entry)) in Hrows.
      rewrite He, length_app in Hrows. simpl in Hrows.
      pose proof (filter_length_le
                    (fun e0 => negb (entry_id e0 =? last)) (entries s)). lia.
    - exfalso. rewrite He in Hrows. destruct (entries s); discriminate. }
  destruct Hshape as (row & He & Hid & Hq).
  unfold undo_cmd. rewrite Hadmin2. simpl negb. cbv iota.
  rewrite (delete_last_of_appended s1 (entries s) row He).
  - simpl. repeat split.
    + rewrite He. intros Heq.
      apply (f_equal (@List.length entry)) in Heq.
      rewrite length_app in Heq. simpl in Heq. lia.
    + rewrite <- (message_handler_rate u s s1 Hrun).
      now apply get_rate_fst_meta.
    + rewrite Hq. apply next_rowid_above_counter.
  - intros x Hx. rewrite Hid. now apply next_rowid_fresh.
Qed.

(** ** The row of the rate *)

(** The stored rate is one that [set_rate] wrote, and is not [<= 0]. *)
Lemma handle_rate_written ev s s' x :
  meta_rate s = Some (ReprOf x) -> float_le x (Fin 0) = false ->
  handle ev s = Some s' ->
  exists y, meta_rate s' = Some (ReprOf y) /\ float_le y (Fin 0) = false.
Proof.
  intros Hmeta Hx.
  assert (Hget : get_rate s = (x, s)).
  { unfold get_rate. now rewrite Hmeta. }
  assert (Hkeep : forall t, meta_rate t = meta_rate s ->
            exists y, meta_rate t = Some (ReprOf y) /\ float_le y (Fin 0) = false).
  { intros t Ht. exists x. now rewrite Ht. }
  assert (Hrep : forall n t, meta_rate t = meta_rate s ->
            meta_rate (snd (build_report n t)) = meta_rate s).
  { intros n t Ht. rewrite build_report_db. unfold get_rate.
    rewrite Ht, Hmeta. simpl. now rewrite Ht. }
  assert (Hadd : forall now uid name inr usdt rowid t,
            add_entry now uid name inr usdt s = Some (rowid, t) ->
            meta_rate t = meta_rate s).
  { intros now uid name inr usdt rowid t. apply add_entry_meta. }
  destruct ev as [u|u|u|u|u|data u|u]; simpl.
  - unfold message_handler.
    destruct (String.eqb (msg_text u) ""); [intros [= <-]; now apply Hkeep|].
    destruct (reply_to u) as [target|]; [|intros [= <-]; now apply Hkeep].
    destruct (SINGLE_SIGN_NUMBER_RE_match _) as [token|];
      [|intros [= <-]; now apply Hkeep].
    destruct (negb (sender_is_admin u)); [intros [= <-]; now apply Hkeep|].
    destruct (parse_signed_token token) as [val|]; [|intros [= <-]; now apply Hkeep].
    destruct (float_lt _ _); [intros [= <-]; now apply Hkeep|].
    rewrite Hget.
    destruct (add_entry _ _ _ _ _ _) as [[rowid s2]|] eqn:Ha; [|discriminate].
    intros [= <-]. apply Hkeep, Hrep. eapply Hadd; eassumption.
  - intros [= <-]. unfold rate_cmd.
    destruct (negb (sender_is_admin u)); [now apply Hkeep|].
    destruct (args u) as [|a rest]; [rewrite Hget; now apply Hkeep|].
    destruct (float_of_string a) as [r|]; [|now apply Hkeep].
    destruct (float_le r (Fin 0)) eqn:Hr; [now apply Hkeep|].
    exists r. now split.
  - intros [= <-]. now apply Hkeep, Hrep.
  - unfold add_cmd.
    assert (Hstore : forall now uid name amount,
              add_cmd_store now uid name amount s = Some s' ->
              exists y, meta_rate s' = Some (ReprOf y) /\ float_le y (Fin 0) = false).
    { intros now uid name amount. unfold add_cmd_store.
      destruct (float_of_string _) as [val|]; [|intros [= <-]; now apply Hkeep].
      rewrite Hget.
      destruct (add_entry _ _ _ _ _ _) as [[rowid s2]|] eqn:Ha; [|discriminate].
      simpl. intros [= <-]. apply Hkeep. eapply Hadd; eassumption. }
    destruct (negb (sender_is_admin u)); [intros [= <-]; now apply Hkeep|].
    destruct (reply_to u) as [target|], (args u) as [|a [|b [|c rest]]];
      try (intros [= <-]; now apply Hkeep); apply Hstore.
  - intros [= <-]. unfold undo_cmd.
    destruct (negb (sender_is_admin u)); [now apply Hkeep|].
    unfold delete_last_entry.
    destruct (sort_desc id_ge (entries s)); now apply Hkeep.
  - intros [= <-]. unfold reset_callback.
    destruct (String.eqb data "reset_cancel"); [now apply Hkeep|].
    destruct (negb (sender_is_admin u)); [now apply Hkeep|].
    now apply Hkeep, Hrep.
  - intros [= <-]. now apply Hkeep.
Qed.

Lemma reachable_rate_written s :
  reachable s ->
  exists x, meta_rate s = Some (ReprOf x) /\ float_le x (Fin 0) = false.
Proof.
  induction 1 as [|s ev s' _ (x & Hmeta & Hx) Hstep].
  - exists DEFAULT_RATE. now split.
  - exact (handle_rate_written ev s s' x Hmeta Hx Hstep).
Qed.

(** X18.  In every database that the program reaches from a new file the
    row of the rate is present and holds a value that [set_rate] wrote, one
    that is not [<= 0].  So [get_rate] returns that value and writes
    nothing, [build_report] and [/summary] leave the database as it is, and
    [init_db] at the next start changes nothing. *)
Theorem rate_row_always_present s :
  reachable s ->
  exists x,
    meta_rate s = Some (ReprOf x) /\
    float_le x (Fin 0) = false /\
    get_rate s = (x, s) /\
    (forall n, snd (build_report n s) = s) /\
    (forall u, summary_cmd u s = s) /\
    init_db s = s.
Proof.
  intros Hreach. destruct (reachable_rate_written s Hreach) as (x & Hmeta & Hx).
  assert (Hget : get_rate s = (x, s)).
  { unfold get_rate. now rewrite Hmeta. }
  exists x. repeat split; trivial.
  - intros n. now rewrite build_report_db, Hget.
  - intros u. unfold summary_cmd. now rewrite build_report_db, Hget.
  - unfold init_db. now rewrite Hmeta.
Qed.

(** ** The report of an empty ledger *)

(** X19.  With no entries, whatever [latest_n] is, the report is the
    title, the two placeholder lines "No user totals yet." and "No recent
    entries.", six totals that are all zero, and the rate that [get_rate]
    returns; the table stays empty. *)
Theorem build_report_of_empty_table latest_n s :
  entries s = [] ->
  fst (build_report latest_n s)
  = [LTitle; LBlank; LNoUserTotals; LBlank; LRecentHeader; LNoRecent; LBlank;
     LGrossInr 0; LRefundedInr 0; LNetInr 0; LBlank;
     LGrossUsdt 0; LRefundedUsdt 0; LNetUsdt 0; LBlank;
     LRate (fst (get_rate s))] /\
  entries (snd (build_report latest_n s)) = [].
Proof.
  intros Hnil. split; [|now rewrite build_report_entries].
  unfold build_report, per_user_lines, per_user_query, get_last_entries,
    totals_block, sql_limit.
  rewrite Hnil. simpl.
  destruct (get_rate s) as [rate s1]. simpl.
  destruct (latest_n <? 0); [reflexivity|]. now rewrite firstn_nil.
Qed.

(** ** Commas in a token *)

Lemma lang_nullable r l : lang r l -> l = [] -> nullable r = true.
Proof.
  induction 1 as [|p c Hc|r1 r2 l1 l2 _ IH1 _ IH2|r1 r2 l _ IH|r1 r2 l _ IH
                 |r|r l1 l2 _ _ _ _]; intros Hl; simpl; trivial.
  - discriminate.
  - apply app_eq_nil in Hl. destruct Hl as [-> ->].
    now rewrite IH1, IH2.
  - now rewrite IH.
  - rewrite IH by assumption. apply orb_true_r.
Qed.

Lemma lang_star_inv_cons r c l :
  lang (Star r) (c :: l) ->
  exists l1 l2, l = l1 ++ l2 /\ lang r (c :: l1) /\ lang (Star r) l2.
Proof.
  intros H. remember (Star r) as sr eqn:E. remember (c :: l) as w eqn:Ew.
  induction H as [| | | | |r0|r0 l1 l2 H1 _ H2 IH2]; try discriminate.
  injection E as ->. destruct l1 as [|a l1].
  - simpl in Ew. now apply IH2.
  - simpl in Ew. injection Ew as -> <-. now exists l1, l2.
Qed.

Lemma lang_deriv c r l : lang r (c :: l) -> lang (deriv c r) l.
Proof.
  revert l.
  induction r as [| |p|r1 IH1 r2 IH2|r1 IH1 r2 IH2|r IH]; simpl; intros l H.
  - inversion H.
  - inversion H.
  - inversion H; subst. match goal with Hp : p c = true |- _ => rewrite Hp end.
    constructor.
  - apply lang_cat_inv in H. destruct H as (l1 & l2 & Hl & H1 & H2).
    destruct l1 as [|a l1].
    + simpl in Hl. subst l2.
      rewrite (lang_nullable r1 [] H1 eq_refl).
      apply lang_alt_r. now apply IH2.
    + simpl in Hl. injection Hl as <- ->.
      assert (Hcat : lang (Cat (deriv c r1) r2) (l1 ++ l2)).
      { constructor; [now apply IH1 | exact H2]. }
      destruct (nullable r1); [now apply lang_alt_l | exact Hcat].
  - apply lang_alt_inv in H. destruct H as [H|H];
      [apply lang_alt_l | apply lang_alt_r]; auto.
  - apply lang_star_inv_cons in H. destruct H as (l1 & l2 & -> & H1 & H2).
    constructor; [now apply IH | exact H2].
Qed.

Lemma lang_fullmatch r l : lang r l -> fullmatch r l = true.
Proof.
  revert r. induction l as [|c l IH]; simpl; intros r H.
  - now apply (lang_nullable r []).
  - now apply IH, lang_deriv.
Qed.

Lemma all_digits_star ds : all_digits ds -> lang (Star digit_re) ds.
Proof.
  induction 1 as [|d ds Hd _ IH]; [constructor|].
  apply (lang_star_cons digit_re [d] ds); [now constructor | exact IH].
Qed.

Lemma all_digits_plus ds : all_digits ds -> ds <> [] -> lang (plus digit_re) ds.
Proof.
  intros Hds Hne. destruct ds as [|d ds]; [contradiction|].
  apply Forall_cons_iff in Hds. destruct Hds as [Hd Hds].
  apply (lang_cat digit_re (Star digit_re) [d] ds);
    [now constructor | now apply all_digits_star].
Qed.

Lemma plain_number_lang l : plain_number l -> lang plain_re l.
Proof.
  intros [sg ds frac Hsg Hne Hds Hfrac].
  apply (lang_cat sign_re _ [sg] (ds ++ frac)); [now constructor|].
  constructor; [now apply all_digits_plus|].
  destruct Hfrac as [->|(fd & -> & Hfne & Hfd)].
  - apply lang_alt_r. constructor.
  - apply lang_alt_l.
    apply (lang_cat (lit ".") _ ["."%char] fd);
      [now constructor | now apply all_digits_plus].
Qed.

Lemma filter_filter_same {A : Type} (p : A -> bool) l :
  filter p (filter p l) = filter p l.
Proof.
  apply filter_all_kept. intros x Hx. apply filter_In in Hx. apply Hx.
Qed.

(** X20.  The commas of a token are optional.  When a text is matched,
    so is its token with the commas taken out, and both parse to the same
    value: [+1,234] and [+1234] record the same amount. *)
Theorem commas_are_optional text token :
  SINGLE_SIGN_NUMBER_RE_match text = Some token ->
  SINGLE_SIGN_NUMBER_RE_match (remove_commas token) = Some (remove_commas token) /\
  parse_signed_token (remove_commas token) = parse_signed_token token.
Proof.
  unfold SINGLE_SIGN_NUMBER_RE_match at 1.
  destruct (fullmatch number_re _) eqn:Hm; [|discriminate].
  intros [= <-]. apply fullmatch_lang, number_re_plain in Hm.
  split.
  - unfold SINGLE_SIGN_NUMBER_RE_match, remove_commas.
    rewrite (py_strip_no_space _ (fun c => plain_number_no_space _ c Hm)).
    rewrite list_ascii_of_string_of_list_ascii.
    assert (Hfull : fullmatch number_re
                      (filter not_comma (list_ascii_of_string (py_strip text)))
                    = true).
    { apply lang_fullmatch, lang_alt_r. now apply plain_number_lang. }
    now rewrite Hfull.
  - unfold parse_signed_token, remove_commas.
    now rewrite list_ascii_of_string_of_list_ascii, filter_filter_same.
Qed.

(* ================================================================== *)
(** * Worked examples *)

Lemma run_reachable evs s s' : reachable s -> run evs s = Some s' -> reachable s'.
Proof.
  revert s. induction evs as [|ev evs IH]; intros s Hs; simpl.
  - now intros [= <-].
  - destruct (handle ev s) as [s1|] eqn:Hstep; [|discriminate].
    apply IH. exact (reach_step s ev s1 Hs Hstep).
Defined.

Example sample_db_run : run sample_events fresh_db = Some sample_db.
Proof. reflexivity. Defined.

Example sample_db_ids : ids sample_db = [1; 2; 3].
Proof. reflexivity. Defined.

Example sample_db_names : map username (entries sample_db) = ["alice"; "Bob B."; "Bob B."]%string.
Proof. reflexivity. Defined.

Lemma sample_db_NoDup : NoDup (ids sample_db).
Proof.
  rewrite sample_db_ids.
  repeat constructor; simpl; intros H; repeat destruct H as [H|H]; try discriminate H; exact H.
Defined.

(** Bob's total is the smaller one, and his row is written first. *)
Example sample_db_rows :
  map ut_name (per_user_query sample_db) = ["alice"; "Bob B."]%string /\
  map ut_name (per_user_rows 10 sample_db) = ["Bob B."; "alice"]%string.
Proof. split; reflexivity. Qed.

Example sample_db_report_rate :
  exists body, fst (build_report 12 sample_db) = body ++ [LRate DEFAULT_RATE].
Proof. eexists (removelast (fst (build_report 12 sample_db))). reflexivity. Qed.

(** The row that the reply [+1,000] stores at the rate 93.5 . *)
Example reply_plus_1000_row :
  option_map entries (message_handler reply_plus_1000 fresh_db)
  = Some [mk_entry 1 11 "alice" 1000 (10000 # 935) "2024-05-01T10:00:00+05:30"].
Proof. reflexivity. Qed.

Lemma delete_last_entry_removes_max_witness :
  NoDup (ids sample_db) /\
  exists e,
    In e (entries sample_db) /\
    fst (delete_last_entry sample_db) = Some (entry_id e) /\
    Permutation (entries sample_db) (e :: entries (snd (delete_last_entry sample_db))) /\
    (forall limit,
       ~ In (entry_id e)
           (map entry_id (get_last_entries limit (snd (delete_last_entry sample_db))))).
Proof.
  split; [exact sample_db_NoDup|].
  destruct (delete_last_entry_removes_max sample_db sample_db_NoDup) as [_ Hsome].
  destruct Hsome as (e & Hin & _ & Hid & Hperm & Hgone & _).
  - simpl. discriminate.
  - exists e. repeat split; assumption.
Defined.

Lemma sample_last_is_max :
  In sample_last (entries sample_db) /\
  (forall x, In x (entries sample_db) -> entry_id x <= entry_id sample_last).
Proof.
  split.
  - simpl. right. right. left. reflexivity.
  - intros x Hx. simpl in Hx.
    destruct Hx as [<-|[<-|[<-|[]]]]; simpl; lia.
Defined.

Lemma per_user_section_order_witness :
  10 <> 0 /\
  NoDup (ids sample_db) /\
  (exists r,
     In r (per_user_query sample_db) /\
     ut_name r = "Bob B."%string /\
     per_user_rows 10 sample_db = r :: others "Bob B." (per_user_query sample_db)) /\
  per_user_lines 10 sample_db
  = map (fun r => LUserTotal (ut_name r) (ut_inr r) (ut_usdt r))
        (per_user_rows 10 sample_db) /\
  Forall (sums_of (entries sample_db)) (per_user_query sample_db) /\
  StronglySorted s_inr_geP (per_user_query sample_db).
Proof.
  assert (Hlim : 10 <> 0) by discriminate.
  split; [exact Hlim|]. split; [exact sample_db_NoDup|].
  destruct (per_user_section_order 10 sample_db Hlim sample_db_NoDup)
    as ((_ & _ & Hsums & Hsorted) & _ & Hfront).
  destruct sample_last_is_max as [Hin Hmax].
  destruct (Hfront sample_last Hin Hmax) as (Hlines & Hmoved & _).
  split; [apply Hmoved; discriminate|].
  repeat split; assumption.
Defined.

Lemma rate_cmd_checks_rate_witness :
  args rate_90 = "90"%string :: [] /\
  rate_cmd rate_90 fresh_db = set_rate (Fin 90) fresh_db /\
  fst (get_rate (rate_cmd rate_90 fresh_db)) = Fin 90.
Proof.
  split; [reflexivity|].
  destruct (rate_cmd_checks_rate rate_90 fresh_db "90"%string [] eq_refl)
    as (_ & _ & Hset).
  exact (Hset (Fin 90) eq_refl eq_refl eq_refl).
Defined.

(** Where the model of the REAL columns stops: at the rate NaN the
    converted amount of a reply is NaN, and at [/add bob inf] the amount
    itself is infinite. *)
Example non_finite_amounts_are_not_modelled :
  run [OnRate (from_admin "/rate nan" None ["nan"%string]);
       OnMessage (from_admin "+5" (Some alice) [])] fresh_db = None /\
  run [OnAdd (from_admin "/add bob inf" None ["bob"; "inf"]%string)] fresh_db = None.
Proof. split; reflexivity. Qed.

(** The first write of [add_entry] alone would store 0 for a zero
    [amount_inr]; the row as it is left holds the argument. *)
Example add_entry_zero_inr :
  and_or_zero (Fin 0) (Fin 5) = Fin 0 /\
  option_map (fun r => map amount_usdt (entries (snd r)))
             (add_entry "2024-05-01T10:00:00+05:30" 0 "bob" (Fin 0) (Fin 5) fresh_db)
  = Some [5%Q].
Proof. split; reflexivity. Qed.

(** ** Instances of the further properties *)

Lemma sample_db_reachable : reachable sample_db.
Proof.
  exact (run_reachable sample_events fresh_db sample_db reach_fresh sample_db_run).
Defined.

Lemma ids_never_reused_witness :
  reachable sample_db /\
  ids_in_order sample_db /\
  (forall ev s',
     handle ev sample_db = Some s' ->
     sqlite_sequence sample_db <= sqlite_sequence s' /\
     (forall e, In e (entries s') ->
                In e (entries sample_db) \/ sqlite_sequence sample_db < entry_id e)).
Proof.
  split; [exact sample_db_reachable|].
  exact (ids_never_reused sample_db sample_db_reachable).
Defined.

Lemma non_admin_changes_nothing_witness :
  sender_is_admin member_reply = false /\
  message_handler member_reply sample_db = Some sample_db /\
  rate_cmd member_reply sample_db = sample_db /\
  add_cmd member_reply sample_db = Some sample_db /\
  undo_cmd member_reply sample_db = sample_db /\
  (forall data, reset_callback data member_reply sample_db = sample_db) /\
  export_cmd member_reply sample_db = ExportRefused.
Proof.
  split; [reflexivity|].
  exact (non_admin_changes_nothing member_reply sample_db eq_refl).
Defined.

Lemma rate_change_applies_to_later_entries_witness :
  sender_is_admin rate_90 = true /\
  args rate_90 = "90"%string :: [] /\
  float_of_string "90" = Some (Fin 90) /\
  (0 < 90)%Q /\
  reply_to reply_plus_1000 = Some alice /\
  sender_is_admin reply_plus_1000 = true /\
  SINGLE_SIGN_NUMBER_RE_match (py_strip (msg_text reply_plus_1000))
    = Some "+1,000"%string /\
  parse_signed_token "+1,000" = Some (Fin 1000) /\
  (1 # 100000 <= Qabs 1000)%Q /\
  entries (rate_cmd rate_90 sample_db) = entries sample_db /\
  exists s' e,
    message_handler reply_plus_1000 (rate_cmd rate_90 sample_db) = Some s' /\
    entries s' = entries sample_db ++ [e] /\
    amount_inr e = 1000%Q /\
    amount_usdt e = (1000 / 90)%Q.
Proof.
  assert (Hpos : (0 < 90)%Q) by reflexivity.
  assert (Hmag : (1 # 100000 <= Qabs 1000)%Q) by (apply Qle_bool_iff; reflexivity).
  split; [reflexivity|]. split; [reflexivity|]. split; [reflexivity|].
  split; [exact Hpos|]. split; [reflexivity|]. split; [reflexivity|].
  split; [reflexivity|]. split; [reflexivity|]. split; [exact Hmag|].
  exact (rate_change_applies_to_later_entries
           rate_90 sample_db "90"%string [] 90%Q reply_plus_1000 alice
           "+1,000"%string 1000%Q
           eq_refl eq_refl eq_refl Hpos eq_refl eq_refl eq_refl eq_refl Hmag).
Defined.

Lemma add_cmd_forms_witness :
  sender_is_admin add_bob_250 = true /\
  fst (get_rate sample_db) = Fin (935 # 10) /\
  exists s',
    add_cmd add_bob_250 sample_db = Some s' /\
    entries s'
    = entries sample_db
      ++ [mk_entry (next_rowid sample_db) 0 "bob" 250
                   (if Qeq_bool (935 # 10) 0 then 0 else 250 / (935 # 10))%Q
                   (now add_bob_250)].
Proof.
  split; [reflexivity|]. split; [reflexivity|].
  destruct (add_cmd_forms add_bob_250 sample_db (935 # 10) eq_refl eq_refl)
    as (Hname & _ & _).
  exact (Hname "bob"%string "250"%string 250%Q eq_refl eq_refl).
Defined.

Lemma rows_in_insertion_order_witness :
  reachable sample_db /\
  order_by_id (entries sample_db) = entries sample_db /\
  (forall limit,
     get_last_entries limit sample_db = sql_limit limit (rev (entries sample_db))).
Proof.
  split; [exact sample_db_reachable|].
  exact (rows_in_insertion_order sample_db sample_db_reachable).
Defined.

Lemma matched_token_sign_witness :
  SINGLE_SIGN_NUMBER_RE_match " -12,345.50 " = Some "-12,345.50"%string /\
  exists sg rest v,
    "-12,345.50"%string = String sg rest /\
    parse_signed_token "-12,345.50" = Some v /\
    ((sg = "+"%char /\ float_le (Fin 0) v = true) \/
     (sg = "-"%char /\ float_le v (Fin 0) = true)).
Proof.
  split; [reflexivity|].
  exact (matched_token_sign " -12,345.50 "%string "-12,345.50"%string eq_refl).
Defined.

Lemma undo_cmd_after_message_witness :
  reply_to reply_plus_1000 = Some alice /\
  sender_is_admin reply_plus_1000 = true /\
  SINGLE_SIGN_NUMBER_RE_match (py_strip (msg_text reply_plus_1000))
    = Some "+1,000"%string /\
  parse_signed_token "+1,000" = Some (Fin 1000) /\
  (1 # 100000 <= Qabs 1000)%Q /\
  fst (get_rate sample_db) = Fin (935 # 10) /\
  sender_is_admin undo_update = true /\
  exists s1,
    message_handler reply_plus_1000 sample_db = Some s1 /\
    entries s1 <> entries sample_db /\
    entries (undo_cmd undo_update s1) = entries sample_db /\
    fst (get_rate (undo_cmd undo_update s1)) = fst (get_rate sample_db) /\
    sqlite_sequence sample_db < sqlite_sequence (undo_cmd undo_update s1).
Proof.
  assert (Hmag : (1 # 100000 <= Qabs 1000)%Q) by (apply Qle_bool_iff; reflexivity).
  split; [reflexivity|]. split; [reflexivity|]. split; [reflexivity|].
  split; [reflexivity|]. split; [exact Hmag|]. split; [reflexivity|].
  split; [reflexivity|].
  exact (undo_cmd_after_message
           reply_plus_1000 sample_db alice "+1,000"%string 1000%Q (935 # 10)
           undo_update eq_refl eq_refl eq_refl eq_refl Hmag eq_refl eq_refl).
Defined.

Lemma rate_row_always_present_witness :
  reachable sample_db /\
  exists x,
    meta_rate sample_db = Some (ReprOf x) /\
    float_le x (Fin 0) = false /\
    get_rate sample_db = (x, sample_db) /\
    (forall n, snd (build_report n sample_db) = sample_db) /\
    (forall u, summary_cmd u sample_db = sample_db) /\
    init_db sample_db = sample_db.
Proof.
  split; [exact sample_db_reachable|].
  exact (rate_row_always_present sample_db sample_db_reachable).
Defined.

Lemma build_report_of_empty_table_witness :
  entries fresh_db = [] /\
  fst (build_report 10 fresh_db)
  = [LTitle; LBlank; LNoUserTotals; LBlank; LRecentHeader; LNoRecent; LBlank;
     LGrossInr 0; LRefundedInr 0; LNetInr 0; LBlank;
     LGrossUsdt 0; LRefundedUsdt 0; LNetUsdt 0; LBlank;
     LRate (fst (get_rate fresh_db))] /\
  entries (snd (build_report 10 fresh_db)) = [].
Proof.
  split; [reflexivity|].
  exact (build_report_of_empty_table 10 fresh_db eq_refl).
Defined.

Lemma commas_are_optional_witness :
  SINGLE_SIGN_NUMBER_RE_match "+1,234" = Some "+1,234"%string /\
  SINGLE_SIGN_NUMBER_RE_match (remove_commas "+1,234")
    = Some (remove_commas "+1,234") /\
  parse_signed_token (remove_commas "+1,234") = parse_signed_token "+1,234".
Proof.
  split; [reflexivity|].
  exact (commas_are_optional "+1,234"%string "+1,234"%string eq_refl).
Defined.
